(** * three-starter: the Game orchestrator (src/js/Game/Game.js)

    A shallow embedding of the [Game] class and of the collaborators it
    drives.  [Game.js] is the only class of the repository at hand; the
    managers it calls (ModelManager, GeometryManager, SceneManager,
    RaycasterManager, ...) are modelled from the specification and are
    marked as such.

    JavaScript numbers are modelled as rationals ([Q]).  Division by a
    viewport dimension that is zero (NaN or an infinity in JavaScript) is
    outside the model: every statement about such a quotient carries the
    hypothesis that the dimension is positive. *)

From Stdlib Require Import QArith Lqa.
From stdpp Require Import base option list gmap strings.

Open Scope string_scope.
Open Scope list_scope.
Open Scope nat_scope.

(** ** Asset descriptors, loaded assets and the load coordinator *)

Module LoadCoordinator.

(** [new Model(identifier, path, scale, position)] and the option objects
    handed to the geometry manager: identifier, source path and transform
    hints. *)
Record AssetDescriptor := {
  identifier : string;
  sourcePath : string;
  scale : Q;
  position : Q * Q * Q
}.

Section Coordinator.
(** The engine-native handle of a loaded asset is opaque. *)
Context {Handle : Type}.

Record LoadedAsset := {
  la_identifier : string;
  la_handle : Handle
}.

Record AssetLoadError := {
  err_identifier : string;
  err_cause : string
}.

(** What the aggregate operation hands to its caller. *)
Inductive Outcome :=
| Resolved (results : list LoadedAsset)
| Rejected (e : AssetLoadError).

(** An individual load finishing: the asset loader reports the position
    of the descriptor together with the handle or the cause. *)
Inductive Completion :=
| Loaded (i : nat) (h : Handle)
| Failed (i : nat) (cause : string).

Definition index (c : Completion) : nat :=
  match c with Loaded i _ => i | Failed i _ => i end.

(** Modelled from the spec: the LoadBatch of [modelManager.loadModels] /
    [geometryManager.loadGeometries] (ModelManager and GeometryManager are
    not part of the sources at hand).  "{total count, completed count,
    failure (optional), continuation}"; one slot per descriptor keeps the
    results positionally stable.  The continuation is represented by the
    outcome each step emits. *)
Record LoadBatch := {
  descriptors : list AssetDescriptor;
  total : nat;
  completed : nat;
  failure : option AssetLoadError;
  slots : list (option LoadedAsset)
}.

(** The assets the owning manager retains, in descriptor order. *)
Definition retained (b : LoadBatch) : list LoadedAsset := omap id (slots b).

Definition settled (b : LoadBatch) : bool :=
  match failure b with
  | Some _ => true
  | None => bool_decide (completed b = total b)
  end.

(** Modelled from the spec: submitting N descriptors.  With N = 0 the
    batch is complete at once and the continuation fires immediately. *)
Definition awaitAll (descs : list AssetDescriptor) : LoadBatch * option Outcome :=
  let b := {| descriptors := descs;
              total := length descs;
              completed := 0;
              failure := None;
              slots := replicate (length descs) None |} in
  (b, if settled b then Some (Resolved (retained b)) else None).

(** Modelled from the spec: one individual completion.  "continuation
    fires exactly once, either on reaching completed == total with no
    failure, or immediately on first failure (remaining in-flight
    completions are then no-ops)". *)
Definition complete (b : LoadBatch) (c : Completion) : LoadBatch * option Outcome :=
  if settled b then (b, None)
  else
    match descriptors b !! index c, slots b !! index c with
    | Some d, Some None =>
        match c with
        | Loaded i h =>
            let b' := {| descriptors := descriptors b;
                         total := total b;
                         completed := S (completed b);
                         failure := None;
                         slots := <[i := Some {| la_identifier := identifier d;
                                                 la_handle := h |}]> (slots b) |} in
            (b', if settled b' then Some (Resolved (retained b')) else None)
        | Failed i cause =>
            let e := {| err_identifier := identifier d; err_cause := cause |} in
            ({| descriptors := descriptors b;
                total := total b;
                completed := completed b;
                failure := Some e;
                slots := slots b |}, Some (Rejected e))
        end
    | _, _ => (b, None)
    end.

(** Feeding completions in the order they arrive; the second component
    collects every firing of the continuation. *)
Fixpoint run (b : LoadBatch) (cs : list Completion) : LoadBatch * list Outcome :=
  match cs with
  | [] => (b, [])
  | c :: cs =>
      let '(b1, o) := complete b c in
      let '(b2, os) := run b1 cs in
      (b2, option_list o ++ os)
  end.

(** The whole life of a batch: submission, then the completions. *)
Definition firings (descs : list AssetDescriptor) (cs : list Completion) : list Outcome :=
  let '(b, o) := awaitAll descs in
  option_list o ++ (run b cs).2.

Definition final (descs : list AssetDescriptor) (cs : list Completion) : LoadBatch :=
  (run (awaitAll descs).1 cs).1.

(** The results a fully successful batch must deliver. *)
Definition expected (descs : list AssetDescriptor) (handles : list Handle) : list LoadedAsset :=
  zip_with (λ d h, {| la_identifier := identifier d; la_handle := h |}) descs handles.

Definition first_failure (cs : list Completion) : option (nat * string) :=
  head (omap (λ c, match c with Failed i cause => Some (i, cause) | Loaded _ _ => None end) cs).

(** The batch in which exactly the loads at the positions [D] have
    succeeded and none has failed. *)
Definition succeeded_at (descs : list AssetDescriptor) (handles : list Handle)
    (D : list nat) : LoadBatch :=
  {| descriptors := descs;
     total := length descs;
     completed := length D;
     failure := None;
     slots := (λ j, if decide (j ∈ D) then expected descs handles !! j else None)
                <$> seq 0 (length descs) |}.

(** A batch without failure whose counter agrees with its slots. *)
Definition consistent (b : LoadBatch) : Prop :=
  length (slots b) = total b ∧ length (descriptors b) = total b
  ∧ completed b = length (retained b) ∧ failure b = None.

End Coordinator.

Arguments LoadedAsset : clear implicits.
Arguments Outcome : clear implicits.
Arguments Completion : clear implicits.
Arguments LoadBatch : clear implicits.

End LoadCoordinator.

(** ** Scene composition *)

Module SceneComposer.
Import LoadCoordinator.

Record DuplicateIdentifierError := { dup_identifier : string }.

Section Composer.
Context {Handle : Type}.

Record SceneGraphNode := {
  node_identifier : string;
  node_asset : LoadedAsset Handle
}.

(** Modelled from the spec: the scene graph of [sceneManager.scene]
    (SceneManager is not part of the sources at hand): the nodes in
    insertion order, which is the deterministic traversal order, and the
    identifier-to-node index used for lookups. *)
Record SceneGraph := {
  traversal : list SceneGraphNode;
  node_index : gmap string SceneGraphNode
}.

Definition empty_graph : SceneGraph := {| traversal := []; node_index := ∅ |}.

Definition lookup_node (g : SceneGraph) (id : string) : option SceneGraphNode :=
  node_index g !! id.

(** Modelled from the spec: inserting one asset; an identifier already in
    the index is an error, never an overwrite. *)
Definition addThing (g : SceneGraph) (a : LoadedAsset Handle)
  : DuplicateIdentifierError + SceneGraph :=
  match node_index g !! la_identifier a with
  | Some _ => inl {| dup_identifier := la_identifier a |}
  | None =>
      let n := {| node_identifier := la_identifier a; node_asset := a |} in
      inr {| traversal := traversal g ++ [n];
             node_index := <[la_identifier a := n]> (node_index g) |}
  end.

(** Modelled from the spec: [sceneManager.addThings(collection)], failing
    fast at the first identifier that is already present. *)
Fixpoint addThings (g : SceneGraph) (things : list (LoadedAsset Handle))
  : DuplicateIdentifierError + SceneGraph :=
  match things with
  | [] => inr g
  | a :: things =>
      match addThing g a with
      | inl e => inl e
      | inr g' => addThings g' things
      end
  end.

(** The three calls of the load continuation of [Game.init], on a fresh
    graph: geometries, then models, then lights. *)
Definition compose (geometries models lights : list (LoadedAsset Handle))
  : DuplicateIdentifierError + SceneGraph :=
  match addThings empty_graph geometries with
  | inl e => inl e
  | inr g1 =>
      match addThings g1 models with
      | inl e => inl e
      | inr g2 => addThings g2 lights
      end
  end.

(** The identifiers of the nodes, in traversal order. *)
Definition known (g : SceneGraph) : list string := node_identifier <$> traversal g.

(** The index holds exactly the identifiers of the nodes, each once. *)
Definition indexed (g : SceneGraph) : Prop :=
  NoDup (known g) ∧ ∀ id, is_Some (node_index g !! id) ↔ id ∈ known g.

End Composer.

Arguments SceneGraphNode : clear implicits.
Arguments SceneGraph : clear implicits.

End SceneComposer.

(** ** Camera and raycast resolution *)

Module RaycastResolver.
Import LoadCoordinator SceneComposer.

(** The state of [cameraManager.camera] that the orchestrator touches. *)
Record Camera := {
  cam_position : option (Q * Q * Q);
  cam_target : option (Q * Q * Q);
  aspect : option Q
}.

(** [THREE.Vector2]: the normalized pointer. *)
Definition PointerSample : Type := Q * Q.

Record RaycastHit := {
  hit_identifier : string;
  hit_distance : Q
}.

Section Resolver.
Context {Handle : Type}.

(** The engine's ray test: the ray-parameter distance at which the ray
    from the camera through the pointer meets a node, if it does. *)
Variable intersect : PointerSample → Camera → SceneGraphNode Handle → option Q.

(** Modelled from the spec: "among all hits, select the one with minimum
    ray-parameter distance; ties broken by first-encountered" - a later hit
    replaces the best one only when it is strictly nearer. *)
Definition nearer (best : option RaycastHit) (h : RaycastHit) : option RaycastHit :=
  match best with
  | None => Some h
  | Some b => if Qlt_le_dec (hit_distance h) (hit_distance b) then Some h else Some b
  end.

Definition consider (p : PointerSample) (c : Camera)
    (best : option RaycastHit) (n : SceneGraphNode Handle) : option RaycastHit :=
  match intersect p c n with
  | None => best
  | Some d => nearer best {| hit_identifier := node_identifier n; hit_distance := d |}
  end.

Definition nearest (p : PointerSample) (c : Camera) (nodes : list (SceneGraphNode Handle))
  : option RaycastHit :=
  foldl (consider p c) None nodes.

(** Modelled from the spec: [raycasterManager.getTouchedElementIdentifier]
    (RaycasterManager is not part of the sources at hand).  [None] stands
    for the answer "none". *)
Definition resolve (p : PointerSample) (c : Camera) (g : SceneGraph Handle) : option string :=
  hit_identifier <$> nearest p c (traversal g).

End Resolver.
End RaycastResolver.

(** ** The orchestrator: [class Game] *)

Module Game.
Import LoadCoordinator SceneComposer RaycastResolver.

(** Exceptions that can escape a handler. *)
Inductive error :=
| TypeError (msg : string)
| ReferenceError (msg : string)
| DuplicateIdentifier (e : DuplicateIdentifierError)
| EngineError (cause : string).

Inductive result (A : Type) :=
| Normal (a : A)
| Threw (e : error).
Arguments Normal {A} a.
Arguments Threw {A} e.

(** What the page knows of [DeviceOrientationEvent]: not declared at all,
    declared without [requestPermission], or declared with it (iOS 13+). *)
Inductive DeviceOrientationSupport :=
| Undeclared
| WithoutRequestPermission
| WithRequestPermission.

Inductive ShadowMapType := BasicShadowMap | PCFShadowMap | PCFSoftShadowMap.

Record Renderer := {
  antialias : bool;
  shadowMapEnabled : bool;
  shadowMapType : ShadowMapType;
  size : Q * Q
}.

Inductive Controls := DeviceOrientationControls.

(** How the opaque engine behaves while one host event is handled:
    whether [controls.update] and [renderer.render] raise, and with what. *)
Record Engine := {
  updateRaises : option string;
  renderRaises : option string
}.

Definition healthy : Engine := {| updateRaises := None; renderRaises := None |}.

(** The calls the orchestrator issues to the host and to its managers, in
    the order it issues them. *)
Inductive call :=
| ConsoleLog (msg : string)
| ConsoleError (msg : string)
| StatsShowPanel (n : nat)
| AppendChild (what : string)
| DebugPanelAddButtons (labels : list string)
| AddEventListener (target type : string)
| CoverRemove
| RequestPermission
| NewWebGLRenderer (antialias : bool)
| RendererSetSize (width height : Q)
| CreateBasicGroundSurface (id texture : string)
| CreateCubeSkybox
| CreateBasicShape (id : string)
| CreateSpotLight (id : string)
| LoadGeometries (ids : list string)
| LoadModels (ids : list string)
| AddThings (ids : list string)
| SetPosition (x y z : Q)
| LookAtSomething (x y z : Q)
| InitDeviceOrientation
| GetModelReferenceByIdentifier (id : string)
| SetModelPositionX (id : string) (x : Q)
| SoundSetup
| CreateGlobalAudio (id path : string)
| CreatePositionalAudio (target : option string) (path : string)
| RequestAnimationFrame
| StatsBegin
| StatsEnd
| ControlsUpdate
| Render (sceneIds : list string) (cam : Camera)
| GetTouchedElementIdentifier (pointer : PointerSample)
| DebugLogsAddLog (msg : string)
| UpdateProjectionMatrix
| Uncaught (e : error).

Definition is_log (c : call) : bool :=
  match c with ConsoleLog _ | ConsoleError _ => true | _ => false end.

Definition is_tick (c : call) : bool :=
  match c with RequestAnimationFrame => true | _ => false end.

Definition is_render (c : call) : bool :=
  match c with Render _ _ => true | _ => false end.

Definition is_composition (c : call) : bool :=
  match c with AddThings _ => true | _ => false end.

Definition is_renderer_creation (c : call) : bool :=
  match c with NewWebGLRenderer _ => true | _ => false end.

(** What the host delivers. *)
Inductive stimulus {Handle : Type} :=
| Click
| PermissionResponse (response : string)
| PermissionRejected (reason : string)
| ModelCompletion (c : Completion Handle)
| AnimationFrame
| TouchEnd (clientX clientY : Q)
| Resize (width height : Q).
Arguments stimulus : clear implicits.

Definition describe (e : error) : string :=
  match e with
  | TypeError msg => "TypeError: " ++ msg
  | ReferenceError msg => "ReferenceError: " ++ msg
  | DuplicateIdentifier d => "DuplicateIdentifierError: " ++ dup_identifier d
  | EngineError cause => cause
  end.

Section Orchestrator.
Context {Handle : Type}.

(** The opaque engine: the object it builds for a procedural geometry or a
    light, and its ray test. *)
Variable create : string → Handle.
Variable intersect : PointerSample → Camera → SceneGraphNode Handle → option Q.

(** The fields of the [Game] object, the state of its managers as far as
    the orchestrator reads it, and the state of the host page: whether the
    cover element is still in the document, whether a permission request is
    pending, the number of animation frames requested and not yet
    delivered, the viewport, and the calls issued so far.  [this.gui] and
    [this._clock] are left out: nothing in the class reads the first, and
    the second only feeds the elapsed time to the opaque controls update.
    The page is assumed to have its cover element. *)
Record World := mkWorld {
  _debugMode : bool;
  _highPerf : bool;
  _mouse : PointerSample;
  stats : option nat;
  _debuglogs : option (list string);
  _debugPanel : option (list string);
  renderer : option Renderer;
  geometries : list (LoadedAsset Handle);
  modelBatch : option (LoadBatch Handle);
  lights : list (LoadedAsset Handle);
  scene : SceneGraph Handle;
  camera : Camera;
  controls : option Controls;
  deviceOrientation : DeviceOrientationSupport;
  cover : bool;
  permissionPending : bool;
  frames : nat;
  innerWidth : Q;
  innerHeight : Q;
  trace : list call
}.

Definition set_mouse (v : PointerSample) (w : World) : World :=
  mkWorld (_debugMode w) (_highPerf w) v (stats w) (_debuglogs w) (_debugPanel w)
    (renderer w) (geometries w) (modelBatch w) (lights w) (scene w) (camera w)
    (controls w) (deviceOrientation w) (cover w) (permissionPending w) (frames w)
    (innerWidth w) (innerHeight w) (trace w).

Definition set_debuglogs (v : option (list string)) (w : World) : World :=
  mkWorld (_debugMode w) (_highPerf w) (_mouse w) (stats w) v (_debugPanel w)
    (renderer w) (geometries w) (modelBatch w) (lights w) (scene w) (camera w)
    (controls w) (deviceOrientation w) (cover w) (permissionPending w) (frames w)
    (innerWidth w) (innerHeight w) (trace w).

Definition set_renderer (v : option Renderer) (w : World) : World :=
  mkWorld (_debugMode w) (_highPerf w) (_mouse w) (stats w) (_debuglogs w)
    (_debugPanel w) v (geometries w) (modelBatch w) (lights w) (scene w) (camera w)
    (controls w) (deviceOrientation w) (cover w) (permissionPending w) (frames w)
    (innerWidth w) (innerHeight w) (trace w).

Definition set_geometries (v : list (LoadedAsset Handle)) (w : World) : World :=
  mkWorld (_debugMode w) (_highPerf w) (_mouse w) (stats w) (_debuglogs w)
    (_debugPanel w) (renderer w) v (modelBatch w) (lights w) (scene w) (camera w)
    (controls w) (deviceOrientation w) (cover w) (permissionPending w) (frames w)
    (innerWidth w) (innerHeight w) (trace w).

Definition set_modelBatch (v : option (LoadBatch Handle)) (w : World) : World :=
  mkWorld (_debugMode w) (_highPerf w) (_mouse w) (stats w) (_debuglogs w)
    (_debugPanel w) (renderer w) (geometries w) v (lights w) (scene w) (camera w)
    (controls w) (deviceOrientation w) (cover w) (permissionPending w) (frames w)
    (innerWidth w) (innerHeight w) (trace w).

Definition set_lights (v : list (LoadedAsset Handle)) (w : World) : World :=
  mkWorld (_debugMode w) (_highPerf w) (_mouse w) (stats w) (_debuglogs w)
    (_debugPanel w) (renderer w) (geometries w) (modelBatch w) v (scene w) (camera w)
    (controls w) (deviceOrientation w) (cover w) (permissionPending w) (frames w)
    (innerWidth w) (innerHeight w) (trace w).

Definition set_scene (v : SceneGraph Handle) (w : World) : World :=
  mkWorld (_debugMode w) (_highPerf w) (_mouse w) (stats w) (_debuglogs w)
    (_debugPanel w) (renderer w) (geometries w) (modelBatch w) (lights w) v (camera w)
    (controls w) (deviceOrientation w) (cover w) (permissionPending w) (frames w)
    (innerWidth w) (innerHeight w) (trace w).

Definition set_camera (v : Camera) (w : World) : World :=
  mkWorld (_debugMode w) (_highPerf w) (_mouse w) (stats w) (_debuglogs w)
    (_debugPanel w) (renderer w) (geometries w) (modelBatch w) (lights w) (scene w) v
    (controls w) (deviceOrientation w) (cover w) (permissionPending w) (frames w)
    (innerWidth w) (innerHeight w) (trace w).

Definition set_controls (v : option Controls) (w : World) : World :=
  mkWorld (_debugMode w) (_highPerf w) (_mouse w) (stats w) (_debuglogs w)
    (_debugPanel w) (renderer w) (geometries w) (modelBatch w) (lights w) (scene w)
    (camera w) v (deviceOrientation w) (cover w) (permissionPending w) (frames w)
    (innerWidth w) (innerHeight w) (trace w).

Definition set_cover (v : bool) (w : World) : World :=
  mkWorld (_debugMode w) (_highPerf w) (_mouse w) (stats w) (_debuglogs w)
    (_debugPanel w) (renderer w) (geometries w) (modelBatch w) (lights w) (scene w)
    (camera w) (controls w) (deviceOrientation w) v (permissionPending w) (frames w)
    (innerWidth w) (innerHeight w) (trace w).

Definition set_permissionPending (v : bool) (w : World) : World :=
  mkWorld (_debugMode w) (_highPerf w) (_mouse w) (stats w) (_debuglogs w)
    (_debugPanel w) (renderer w) (geometries w) (modelBatch w) (lights w) (scene w)
    (camera w) (controls w) (deviceOrientation w) (cover w) v (frames w) (innerWidth
    w) (innerHeight w) (trace w).

Definition set_frames (v : nat) (w : World) : World :=
  mkWorld (_debugMode w) (_highPerf w) (_mouse w) (stats w) (_debuglogs w)
    (_debugPanel w) (renderer w) (geometries w) (modelBatch w) (lights w) (scene w)
    (camera w) (controls w) (deviceOrientation w) (cover w) (permissionPending w) v
    (innerWidth w) (innerHeight w) (trace w).

Definition set_innerWidth (v : Q) (w : World) : World :=
  mkWorld (_debugMode w) (_highPerf w) (_mouse w) (stats w) (_debuglogs w)
    (_debugPanel w) (renderer w) (geometries w) (modelBatch w) (lights w) (scene w)
    (camera w) (controls w) (deviceOrientation w) (cover w) (permissionPending w)
    (frames w) v (innerHeight w) (trace w).

Definition set_innerHeight (v : Q) (w : World) : World :=
  mkWorld (_debugMode w) (_highPerf w) (_mouse w) (stats w) (_debuglogs w)
    (_debugPanel w) (renderer w) (geometries w) (modelBatch w) (lights w) (scene w)
    (camera w) (controls w) (deviceOrientation w) (cover w) (permissionPending w)
    (frames w) (innerWidth w) v (trace w).

Definition set_trace (v : list call) (w : World) : World :=
  mkWorld (_debugMode w) (_highPerf w) (_mouse w) (stats w) (_debuglogs w)
    (_debugPanel w) (renderer w) (geometries w) (modelBatch w) (lights w) (scene w)
    (camera w) (controls w) (deviceOrientation w) (cover w) (permissionPending w)
    (frames w) (innerWidth w) (innerHeight w) v.

(** *** Handlers as state transformers that may throw *)

Definition M (A : Type) : Type := World → World * result A.

#[local] Instance M_ret : MRet M := λ A a w, (w, Normal a).
#[local] Instance M_bind : MBind M := λ A B f m w,
  match m w with
  | (w', Normal a) => f a w'
  | (w', Threw e) => (w', Threw e)
  end.

Definition throw {A : Type} (e : error) : M A := λ w, (w, Threw e).
Definition get : M World := λ w, (w, Normal w).
Definition modify (f : World → World) : M unit := λ w, (f w, Normal tt).
Definition issue (c : call) : M unit := modify (λ w, set_trace (trace w ++ [c]) w).
Definition when (b : bool) (m : M unit) : M unit := if b then m else mret tt.

(** [promise.catch(console.error)] *)
Definition catch_console_error (m : M unit) : M unit := λ w,
  match m w with
  | (w', Normal a) => (w', Normal a)
  | (w', Threw e) => issue (ConsoleError (describe e)) w'
  end.

(** *** Collaborators *)

Definition asset (id : string) : LoadedAsset Handle :=
  {| la_identifier := id; la_handle := create id |}.

Definition ids (things : list (LoadedAsset Handle)) : list string :=
  la_identifier <$> things.

Definition scene_ids (g : SceneGraph Handle) : list string :=
  node_identifier <$> traversal g.

(** Modelled from the spec: [modelManager.models], the assets the model
    manager retains, in descriptor order. *)
Definition models (w : World) : list (LoadedAsset Handle) :=
  match modelBatch w with
  | Some b => retained b
  | None => []
  end.

(** Modelled from the spec: [lightingManager.createSpotLight]; the
    lighting manager owns the light it creates. *)
Definition createSpotLight (id : string) : M unit :=
  issue (CreateSpotLight id);;
  modify (λ w, set_lights (lights w ++ [asset id]) w).

(** Modelled from the spec: [geometryManager.loadGeometries].  The call
    takes no continuation and the geometries were built by the manager
    beforehand, so the manager owns them when the call returns. *)
Definition loadGeometries (things : list (LoadedAsset Handle)) : M unit :=
  issue (LoadGeometries (ids things));;
  modify (λ w, set_geometries (geometries w ++ things) w).

(** Modelled from the spec: [modelManager.loadModels(models, continuation)]
    submits the batch; the continuation runs when the batch resolves. *)
Definition loadModels (descs : list AssetDescriptor) (continuation : M unit) : M unit :=
  issue (LoadModels (identifier <$> descs));;
  let '(b, o) := awaitAll descs in
  modify (set_modelBatch (Some b));;
  match o with
  | Some (Resolved _) => continuation
  | _ => mret tt
  end.

(** Modelled from the spec: [sceneManager.addThings]; a duplicate
    identifier is thrown and leaves the scene as it was. *)
Definition sceneAddThings (things : list (LoadedAsset Handle)) : M unit :=
  issue (AddThings (ids things));;
  w ← get;
  match addThings (scene w) things with
  | inl e => throw (DuplicateIdentifier e)
  | inr g => modify (set_scene g)
  end.

(** Modelled from the spec: [cameraManager.setPosition] and
    [cameraManager.lookAtSomething] (CameraManager is not part of the
    sources at hand) set the position and the orientation target of the
    camera. *)
Definition setPosition (x y z : Q) : M unit :=
  issue (SetPosition x y z);;
  modify (λ w, set_camera {| cam_position := Some (x, y, z);
                             cam_target := cam_target (camera w);
                             aspect := aspect (camera w) |} w).

Definition lookAtSomething (x y z : Q) : M unit :=
  issue (LookAtSomething x y z);;
  modify (λ w, set_camera {| cam_position := cam_position (camera w);
                             cam_target := Some (x, y, z);
                             aspect := aspect (camera w) |} w).

(** Modelled from the spec: [controlsManager.initDeviceOrientation]
    (ControlsManager is not part of the sources at hand) binds the
    orientation controls to the camera; before it, [controlsManager.controls]
    is undefined. *)
Definition initDeviceOrientation : M unit :=
  issue InitDeviceOrientation;;
  modify (set_controls (Some DeviceOrientationControls)).

(** Modelled from the spec: lookup by exact identifier; a missing model is
    "not found" ([undefined]). *)
Definition getModelReferenceByIdentifier (id : string) : M (option (LoadedAsset Handle)) :=
  issue (GetModelReferenceByIdentifier id);;
  w ← get;
  mret (head (filter (λ a, la_identifier a = id) (models w))).

(** [this._debuglogs.addLog(msg)]; [this._debuglogs] is undefined outside
    debug mode *)
Definition addLog (msg : string) : M unit :=
  w ← get;
  match _debuglogs w with
  | None => throw (TypeError "Cannot read properties of undefined (reading 'addLog')")
  | Some logs =>
      issue (DebugLogsAddLog msg);;
      modify (set_debuglogs (Some (logs ++ [msg])))
  end.

(** [this.stats.begin()] and [this.stats.end()]; [this.stats] is undefined
    outside debug mode *)
Definition statsBegin : M unit :=
  w ← get;
  match stats w with
  | None => throw (TypeError "Cannot read properties of undefined (reading 'begin')")
  | Some _ => issue StatsBegin
  end.

Definition statsEnd : M unit :=
  w ← get;
  match stats w with
  | None => throw (TypeError "Cannot read properties of undefined (reading 'end')")
  | Some _ => issue StatsEnd
  end.

Definition controlsUpdate (eng : Engine) : M unit :=
  w ← get;
  match controls w with
  | None => throw (TypeError "Cannot read properties of undefined (reading 'update')")
  | Some _ =>
      issue ControlsUpdate;;
      match updateRaises eng with
      | Some cause => throw (EngineError cause)
      | None => mret tt
      end
  end.

Definition rendererRender (eng : Engine) : M unit :=
  w ← get;
  match renderer w with
  | None => throw (TypeError "Cannot read properties of undefined (reading 'render')")
  | Some _ =>
      issue (Render (scene_ids (scene w)) (camera w));;
      match renderRaises eng with
      | Some cause => throw (EngineError cause)
      | None => mret tt
      end
  end.

Definition requestAnimationFrame : M unit :=
  issue RequestAnimationFrame;;
  modify (λ w, set_frames (S (frames w)) w).

(** *** The methods of [Game] *)

(** [constructor(isDebugMode = true, highPerf = false)]; an omitted
    argument takes its default.  The page supplies the viewport and what it
    knows of [DeviceOrientationEvent]. *)
Definition constructor (isDebugMode highPerf : option bool)
    (support : DeviceOrientationSupport) (width height : Q) : World :=
  let debug := default true isDebugMode in
  {| _debugMode := debug;
     _highPerf := default false highPerf;
     _mouse := (0, 0)%Q;
     stats := if debug then Some 0 else None;
     _debuglogs := if debug then Some [] else None;
     _debugPanel := if debug then Some ["To Map"; "To Start"] else None;
     renderer := None;
     geometries := [];
     modelBatch := None;
     lights := [];
     scene := empty_graph;
     camera := {| cam_position := None; cam_target := None; aspect := None |};
     controls := None;
     deviceOrientation := support;
     cover := true;
     permissionPending := false;
     frames := 0;
     innerWidth := width;
     innerHeight := height;
     trace :=
       [ConsoleLog "🎮 Game constructor"]
       ++ (if debug
           then [StatsShowPanel 0; AppendChild "stats.dom";
                 DebugPanelAddButtons ["To Map"; "To Start"]]
           else [])
       ++ [AddEventListener "cover" "click";
           AddEventListener "window" "resize";
           AddEventListener "window" "touchend"] |}.

(** [_loop()] *)
Definition _loop (eng : Engine) : M unit :=
  requestAnimationFrame;;
  w ← get;
  when (_debugMode w) statsBegin;;
  controlsUpdate eng;;
  rendererRender eng;;
  when (_debugMode w) statsEnd.

(** The continuation handed to [loadModels] in [init].  The callbacks
    handed to the sound manager run later, if at all, and touch only the
    sound they are given; they are not modelled. *)
Definition onModelsLoaded (eng : Engine) : M unit :=
  w ← get;
  sceneAddThings (geometries w);;
  sceneAddThings (models w);;
  sceneAddThings (lights w);;
  setPosition 3 5 10;;
  lookAtSomething 0 5 0;;
  initDeviceOrientation;;
  fox ← getModelReferenceByIdentifier "Fox";
  match fox with
  | None => throw (TypeError "Cannot read properties of undefined (reading 'position')")
  | Some _ => issue (SetModelPositionX "Fox" 2)
  end;;
  issue SoundSetup;;
  issue (CreateGlobalAudio "AmbientMusic" "sounds/birds.mp3");;
  truck ← getModelReferenceByIdentifier "IceTruck";
  issue (CreatePositionalAudio (la_identifier <$> truck) "sounds/car.wav");;
  _loop eng.

(** The [models] array of [init]. *)
Definition modelDescriptors : list AssetDescriptor :=
  [ {| identifier := "Fox"; sourcePath := "models/Fox.glb";
       scale := 0.02; position := (0, 0, 0)%Q |};
    {| identifier := "IceTruck"; sourcePath := "models/CesiumMilkTruck.glb";
       scale := 1.5; position := (-5, 0, 0)%Q |} ].

(** The batch of the two models just after its submission. *)
Definition submitted : LoadBatch Handle :=
  {| descriptors := modelDescriptors; total := 2; completed := 0;
     failure := None; slots := [None; None] |}.

(** [init()] *)
Definition init (eng : Engine) : M unit :=
  w ← get;
  modify (set_renderer (Some {| antialias := _highPerf w;
                                shadowMapEnabled := true;
                                shadowMapType := PCFSoftShadowMap;
                                size := (innerWidth w, innerHeight w) |}));;
  issue (NewWebGLRenderer (_highPerf w));;
  issue (RendererSetSize (innerWidth w) (innerHeight w));;
  issue (AppendChild "renderer.domElement");;
  issue (CreateBasicGroundSurface "Ground" "textures/grass_dirt.jpg");;
  issue CreateCubeSkybox;;
  issue (CreateBasicShape "GreenCube");;
  issue (CreateBasicShape "BlueWall");;
  (* the identifier of the skybox is the one of the spec's scenario *)
  let geometries := [asset "Ground"; asset "Skybox"; asset "GreenCube"; asset "BlueWall"] in
  createSpotLight "MainSpotLight";;
  loadGeometries geometries;;
  loadModels modelDescriptors (onModelsLoaded eng).

(** [resizeViewport()].  The aspect is the rational quotient; for a
    height of zero JavaScript stores an infinity or NaN instead, so the
    statements about the new aspect assume a positive height. *)
Definition resizeViewport : M unit :=
  w ← get;
  let width := innerWidth w in
  let height := innerHeight w in
  match renderer w with
  | None => throw (TypeError "Cannot read properties of undefined (reading 'setSize')")
  | Some r =>
      modify (set_renderer (Some {| antialias := antialias r;
                                    shadowMapEnabled := shadowMapEnabled r;
                                    shadowMapType := shadowMapType r;
                                    size := (width, height) |}));;
      issue (RendererSetSize width height)
  end;;
  modify (λ w, set_camera {| cam_position := cam_position (camera w);
                             cam_target := cam_target (camera w);
                             aspect := Some (width / height)%Q |} w);;
  issue UpdateProjectionMatrix.

(** The normalized device coordinates computed by [onTouchEnd]. *)
Definition normalize (clientX clientY width height : Q) : PointerSample :=
  ((clientX / width) * 2 - 1, (- (clientY / height)) * 2 + 1)%Q.

Definition shown (touched : option string) : string := default "none" touched.

(** [onTouchEnd(event)], with the coordinates of [event.changedTouches[0]] *)
Definition onTouchEnd (clientX clientY : Q) : M unit :=
  w ← get;
  modify (set_mouse (normalize clientX clientY (innerWidth w) (innerHeight w)));;
  w ← get;
  issue (GetTouchedElementIdentifier (_mouse w));;
  let touchedElementIdentifier := resolve intersect (_mouse w) (camera w) (scene w) in
  addLog ("RayCast -> " ++ shown touchedElementIdentifier);;
  issue (ConsoleLog (shown touchedElementIdentifier)).

(** The click listener the constructor puts on the cover element. *)
Definition onCoverClick (eng : Engine) : M unit :=
  modify (set_cover false);;
  issue CoverRemove;;
  w ← get;
  match deviceOrientation w with
  | Undeclared => throw (ReferenceError "DeviceOrientationEvent is not defined")
  | WithRequestPermission =>
      issue RequestPermission;;
      modify (set_permissionPending true)
  | WithoutRequestPermission => init eng
  end.

(** The [then] callback of the permission promise. *)
Definition onPermissionResponse (eng : Engine) (response : string) : M unit :=
  if String.eqb response "granted" then init eng
  else issue (ConsoleError ("Device Orientation Event permission rejected by user: " ++ response)).

(** *** The host *)

(** An exception that escapes a listener or a frame callback is reported
    by the host; the handler's effects up to the throw stay. *)
Definition dispatch (h : M unit) (w : World) : World :=
  match h w with
  | (w', Normal _) => w'
  | (w', Threw e) => set_trace (trace w' ++ [Uncaught e]) w'
  end.

(** One event of the host.  An event reaches a handler only where the
    page has something registered for it: a permission answer while the
    promise of a request is pending, a completion once the models are
    submitted, an animation frame when one was requested.  The click is
    delivered while the cover element is in the document: [cover.remove()]
    detaches it, after which no click of the user can reach it.  The
    listener itself is not once-only; a click event dispatched by a script
    on the detached element would run it again, and such histories are
    outside the model.  In a history with at most one click the guard is
    never exercised, and the statements that would otherwise rest on it
    carry that bound ([clicks]) as a hypothesis. *)
Definition step (w : World) (ev : stimulus Handle * Engine) : World :=
  let '(s, eng) := ev in
  match s with
  | Click =>
      if cover w then dispatch (onCoverClick eng) w else w
  | PermissionResponse response =>
      if permissionPending w
      then dispatch (catch_console_error (onPermissionResponse eng response))
                    (set_permissionPending false w)
      else w
  | PermissionRejected reason =>
      if permissionPending w
      then dispatch (issue (ConsoleError reason)) (set_permissionPending false w)
      else w
  | ModelCompletion c =>
      match modelBatch w with
      | None => w
      | Some b =>
          let '(b', o) := complete b c in
          let w' := set_modelBatch (Some b') w in
          match o with
          | Some (Resolved _) => dispatch (onModelsLoaded eng) w'
          | _ => w'
          end
      end
  | AnimationFrame =>
      match frames w with
      | O => w
      | S n => dispatch (_loop eng) (set_frames n w)
      end
  | TouchEnd clientX clientY => dispatch (onTouchEnd clientX clientY) w
  | Resize width height =>
      dispatch resizeViewport (set_innerHeight height (set_innerWidth width w))
  end.

Definition run (w : World) (evs : list (stimulus Handle * Engine)) : World :=
  foldl step w evs.

(** The number of ticks of the render loop so far. *)
Definition ticks (w : World) : nat := length (filter (λ c, is_tick c = true) (trace w)).

(** The calls a handler added to the trace. *)
Definition added (w w' : World) : list call := drop (length (trace w)) (trace w').

(** *** Predicates on worlds and traces *)

(** What no handler changes. *)
Definition same_constants (w w' : World) : Prop :=
  _debugMode w' = _debugMode w ∧ _highPerf w' = _highPerf w ∧ stats w' = stats w
  ∧ deviceOrientation w' = deviceOrientation w
  ∧ (is_Some (_debuglogs w') ↔ is_Some (_debuglogs w)).

(** The debug-only fields exist exactly in debug mode. *)
Definition debug_fields (w : World) : Prop :=
  (is_Some (stats w) ↔ _debugMode w = true)
  ∧ (is_Some (_debuglogs w) ↔ _debugMode w = true).

(** Calls that belong neither to composition nor to the render loop. *)
Definition idle (c : call) : bool :=
  negb (is_tick c || is_render c || is_composition c).

(** Nothing has been composed and the loop has not been started. *)
Definition uncomposed (w : World) : Prop :=
  frames w = 0 ∧ scene w = empty_graph ∧ controls w = None
  ∧ cam_position (camera w) = None
  ∧ Forall (λ c, idle c = true) (trace w).

(** The pre-render Stopped state: no renderer, nothing submitted. *)
Definition stopped (w : World) : Prop :=
  renderer w = None ∧ modelBatch w = None ∧ uncomposed w
  ∧ Forall (λ c, is_renderer_creation c = false) (trace w).

(** [init] has not run while the cover is in place or the permission
    request is pending, and as long as there is no renderer the system is
    stopped. *)
Definition gated (w : World) : Prop :=
  (renderer w = None → stopped w)
  ∧ (cover w = true → permissionPending w = false ∧ renderer w = None)
  ∧ (permissionPending w = true →
       deviceOrientation w = WithRequestPermission ∧ renderer w = None).

(** The batch of the models: submitted together with the renderer, and
    composition happens only once it is complete without failure. *)
Definition batch_ok (w : World) : Prop :=
  (modelBatch w = None ↔ renderer w = None)
  ∧ ∀ b, modelBatch w = Some b →
      descriptors b = modelDescriptors ∧ total b = 2
      ∧ (uncomposed w ∨ (failure b = None ∧ completed b = total b)).

(** The calls of [init] that create the light and submit the loads, and
    the calls of the load continuation that compose the scene, place the
    camera and bind the controls. *)
Definition initCalls : list call :=
  [ CreateSpotLight "MainSpotLight";
    LoadGeometries ["Ground"; "Skybox"; "GreenCube"; "BlueWall"];
    LoadModels ["Fox"; "IceTruck"] ].

Definition setupCalls (g m l : list string) : list call :=
  [ AddThings g; AddThings m; AddThings l;
    SetPosition 3 5 10; LookAtSomething 0 5 0; InitDeviceOrientation ].

Definition set_up (t : list call) : Prop :=
  ∃ g m l, (initCalls ++ setupCalls g m l) `sublist_of` t.

(** A render call is given a populated scene and a positioned camera. *)
Definition well_rendered (c : call) : Prop :=
  match c with
  | Render sceneIds cam => sceneIds ≠ [] ∧ cam_position cam = Some (3, 5, 10)%Q
  | _ => True
  end.

(** Every tick and every render call comes after the whole setup. *)
Definition ordered (t : list call) : Prop :=
  ∀ pre c post, t = pre ++ c :: post →
    is_tick c = true ∨ is_render c = true → set_up pre ∧ well_rendered c.

Definition ready (w : World) : Prop :=
  is_Some (renderer w) ∧ is_Some (controls w)
  ∧ cam_position (camera w) = Some (3, 5, 10)%Q
  ∧ scene_ids (scene w) ≠ []
  ∧ set_up (trace w).

Definition loop_safe (w : World) : Prop :=
  (modelBatch w ≠ None → initCalls `sublist_of` trace w)
  ∧ (frames w > 0 → ready w)
  ∧ ordered (trace w).

Definition invariant (w : World) : Prop :=
  debug_fields w ∧ gated w ∧ batch_ok w ∧ loop_safe w.

(** The stimuli of a history. *)
Definition clicked (evs : list (stimulus Handle * Engine)) : Prop :=
  ∃ eng, (Click, eng) ∈ evs.

Definition granted (evs : list (stimulus Handle * Engine)) : Prop :=
  ∃ eng, (PermissionResponse "granted", eng) ∈ evs.

(** The calls of one tick of a loop that is set up: the frame request,
    then the controls update and the render call, each of which may raise,
    framed by the statistics probes in debug mode. *)
Definition tickCalls (w : World) (eng : Engine) : list call :=
  [RequestAnimationFrame]
  ++ (if _debugMode w then [StatsBegin] else [])
  ++ [ControlsUpdate]
  ++ match updateRaises eng with
     | Some cause => [Uncaught (EngineError cause)]
     | None =>
         [Render (scene_ids (scene w)) (camera w)]
         ++ match renderRaises eng with
            | Some cause => [Uncaught (EngineError cause)]
            | None => if _debugMode w then [StatsEnd] else []
            end
     end.

(** The model completions of a history, in order. *)
Definition completions (evs : list (stimulus Handle * Engine)) : list (Completion Handle) :=
  omap (λ ev, match ev.1 with ModelCompletion c => Some c | _ => None end) evs.

(** How one step may move the world: the constants stay, no pending frame
    is lost, the trace only grows, [init] runs only on a click on the
    cover or on a granted permission, a permission request is opened only
    by a click, and the batch moves only by completions. *)
Definition evolves (w : World) (s : stimulus Handle) (w' : World) : Prop :=
  same_constants w w'
  ∧ frames w ≤ frames w'
  ∧ trace w `prefix_of` trace w'
  ∧ (renderer w' ≠ None →
       renderer w ≠ None
       ∨ (s = Click ∧ cover w = true ∧ deviceOrientation w = WithoutRequestPermission)
       ∨ (s = PermissionResponse "granted" ∧ permissionPending w = true))
  ∧ (permissionPending w' = true →
       permissionPending w = true
       ∨ (s = Click ∧ cover w = true ∧ deviceOrientation w = WithRequestPermission))
  ∧ (cover w = false → permissionPending w = false →
       modelBatch w' = match s, modelBatch w with
                       | ModelCompletion c, Some b => Some (complete b c).1
                       | _, mb => mb
                       end).

(** *** What each stimulus moves *)

(** Whether the handling of a stimulus runs [init]: a click on the cover
    where [requestPermission] does not exist, or the answer 'granted' to a
    pending permission request. *)
Definition inits (w : World) (s : stimulus Handle) : bool :=
  match s with
  | Click =>
      cover w && match deviceOrientation w with
                 | WithoutRequestPermission => true
                 | _ => false
                 end
  | PermissionResponse response => permissionPending w && String.eqb response "granted"
  | _ => false
  end.

(** The renderer [init] creates, and a renderer after [setSize]. *)
Definition freshRenderer (w : World) : Renderer :=
  {| antialias := _highPerf w;
     shadowMapEnabled := true;
     shadowMapType := PCFSoftShadowMap;
     size := (innerWidth w, innerHeight w) |}.

Definition resized (width height : Q) (r : Renderer) : Renderer :=
  {| antialias := antialias r;
     shadowMapEnabled := shadowMapEnabled r;
     shadowMapType := shadowMapType r;
     size := (width, height) |}.

(** The line [onTouchEnd] adds to the debug log. *)
Definition touchLog (w : World) (clientX clientY : Q) : string :=
  "RayCast -> "
  ++ shown (resolve intersect (normalize clientX clientY (innerWidth w) (innerHeight w))
              (camera w) (scene w)).

(** The fields one step writes, stimulus by stimulus. *)
Definition moves (w : World) (s : stimulus Handle) (w' : World) : Prop :=
  cover w' = match s with Click => false | _ => cover w end
  ∧ permissionPending w'
    = match s with
      | Click =>
          if cover w
          then match deviceOrientation w with
               | WithRequestPermission => true
               | _ => permissionPending w
               end
          else permissionPending w
      | PermissionResponse _ | PermissionRejected _ => false
      | _ => permissionPending w
      end
  ∧ renderer w'
    = (if inits w s then Some (freshRenderer w)
       else match s with
            | Resize width height => resized width height <$> renderer w
            | _ => renderer w
            end)
  ∧ innerWidth w' = match s with Resize width _ => width | _ => innerWidth w end
  ∧ innerHeight w' = match s with Resize _ height => height | _ => innerHeight w end
  ∧ _mouse w'
    = match s with
      | TouchEnd clientX clientY =>
          normalize clientX clientY (innerWidth w) (innerHeight w)
      | _ => _mouse w
      end
  ∧ _debuglogs w'
    = match s with
      | TouchEnd clientX clientY =>
          (λ logs, logs ++ [touchLog w clientX clientY]) <$> _debuglogs w
      | _ => _debuglogs w
      end
  ∧ aspect (camera w')
    = match s, renderer w with
      | Resize width height, Some _ => Some (width / height)%Q
      | _, _ => aspect (camera w)
      end
  ∧ match s with
    | ModelCompletion _ =>
        frames w' = frames w
        ∨ (frames w' = S (frames w) ∧ ∃ b, modelBatch w = Some b ∧ settled b = false)
    | _ =>
        frames w' = frames w ∧ scene w' = scene w ∧ controls w' = controls w
        ∧ cam_position (camera w') = cam_position (camera w)
        ∧ cam_target (camera w') = cam_target (camera w)
    end.

(** The touchend events of a history. *)
Definition is_touch (s : stimulus Handle) : bool :=
  match s with TouchEnd _ _ => true | _ => false end.

Definition touches (evs : list (stimulus Handle * Engine)) : nat :=
  length (filter (λ ev, is_touch ev.1 = true) evs).

(** The clicks of a history. *)
Definition is_click (s : stimulus Handle) : bool :=
  match s with Click => true | _ => false end.

Definition clicks (evs : list (stimulus Handle * Engine)) : nat :=
  length (filter (λ ev, is_click ev.1 = true) evs).

(** [init] has been refused: the cover is gone, no permission request is
    pending and there is no renderer. *)
Definition refused (w : World) : Prop :=
  cover w = false ∧ permissionPending w = false ∧ renderer w = None.

(** *** A failed load, seen from the Game *)

Definition is_completion (s : stimulus Handle) : bool :=
  match s with ModelCompletion _ => true | _ => false end.

(** The Game takes notice of something between two worlds when it issues
    a call - a log, a call to a manager, an exception the host reports - or
    when a field other than the batch of the load coordinator changes. *)
Definition surfaced (w w' : World) : Prop :=
  added w w' ≠ [] ∨ set_modelBatch (modelBatch w) w' ≠ w.

End Orchestrator.

(** *** A concrete page

    Handles are numbers and no ray hits anything; the Game is constructed
    outside debug mode on a page without [requestPermission]; the cover is
    clicked and the two models load, the truck first. *)

Definition exampleCreate (id : string) : nat := String.length id.

Definition exampleIntersect (p : PointerSample) (c : Camera) (n : SceneGraphNode nat)
  : option Q := None.

Definition exampleGame : World (Handle:=nat) :=
  constructor (Some false) None WithoutRequestPermission 800 600.

Definition exampleStart : list (stimulus nat * Engine) :=
  [ (Click, healthy);
    (ModelCompletion (Loaded 1 7), healthy);
    (ModelCompletion (Loaded 0 8), healthy) ].

Definition exampleRunning : World (Handle:=nat) :=
  run exampleCreate exampleIntersect exampleGame exampleStart.

(** The same page when the fox fails to load. *)
Definition exampleFailure : list (stimulus nat * Engine) :=
  [ (ModelCompletion (Loaded 1 7), healthy);
    (ModelCompletion (Failed 0 "404"), healthy) ].

Definition contextLost : Engine :=
  {| updateRaises := Some "context lost"; renderRaises := None |}.
End Game.

(** * Properties *)

(** ** The load coordinator *)

Module LoadCoordinatorFacts.
Import LoadCoordinator.

Section Facts.
Context {Handle : Type}.
Implicit Types (descs : list AssetDescriptor) (handles : list Handle).
Implicit Types (b : LoadBatch Handle) (cs : list (Completion Handle)) (D : list nat).

Lemma omap_id_Some {A : Type} (l : list A) : omap id (Some <$> l) = l.
Proof. induction l as [|x l IH]; simpl; [done | f_equal; exact IH]. Qed.

Lemma lookups_seq {A : Type} (l : list A) :
  (λ j, l !! j) <$> seq 0 (length l) = Some <$> l.
Proof.
  apply list_eq; intros j. rewrite !list_lookup_fmap.
  destruct (decide (j < length l)) as [Hj|Hj].
  - rewrite lookup_seq_lt by done. simpl.
    destruct (lookup_lt_is_Some_2 l j Hj) as [x Hx]. by rewrite Hx.
  - rewrite lookup_seq_ge by lia. rewrite lookup_ge_None_2 by lia. done.
Qed.

(** Distinct positions below [n] are at most [n], and [n] of them are all. *)
Lemma distinct_bounded D n :
  NoDup D → (∀ j, j ∈ D → j < n) → length D ≤ n.
Proof.
  intros Hnd Hlt.
  assert (D ⊆+ seq 0 n) as Hsub.
  { apply NoDup_submseteq; [done|]. intros j Hj. apply elem_of_seq. split; [lia|]. simpl. by apply Hlt. }
  apply submseteq_length in Hsub. by rewrite length_seq in Hsub.
Qed.

Lemma distinct_full D n :
  NoDup D → (∀ j, j ∈ D → j < n) → length D = n → ∀ j, j < n → j ∈ D.
Proof.
  intros Hnd Hlt Hlen j Hj.
  assert (D ⊆+ seq 0 n) as Hsub.
  { apply NoDup_submseteq; [done|]. intros k Hk. apply elem_of_seq. split; [lia|]. simpl. by apply Hlt. }
  apply submseteq_length_Permutation in Hsub; [|rewrite length_seq; lia].
  rewrite Hsub. apply elem_of_seq. lia.
Qed.

Lemma awaitAll_succeeded_at descs handles :
  (awaitAll descs).1 = succeeded_at descs handles [].
Proof.
  unfold awaitAll, succeeded_at. simpl. f_equal.
  apply list_eq; intros j. rewrite list_lookup_fmap.
  destruct (decide (j < length descs)) as [Hj|Hj].
  - rewrite lookup_replicate_2 by done. rewrite lookup_seq_lt by done. simpl.
    done.
  - rewrite (proj1 (lookup_replicate_None _ _ _)) by lia. by rewrite lookup_seq_ge by lia.
Qed.

Lemma expected_length descs handles :
  length handles = length descs → length (expected descs handles) = length descs.
Proof. intros H. unfold expected. rewrite length_zip_with. lia. Qed.

Lemma retained_full descs handles D :
  length handles = length descs →
  (∀ j, j < length descs → j ∈ D) →
  retained (succeeded_at descs handles D) = expected descs handles.
Proof.
  intros Hlen Hfull. unfold retained, succeeded_at. cbn [slots].
  transitivity (omap id (Some <$> expected descs handles)); [|apply omap_id_Some].
  f_equal. rewrite <- lookups_seq, expected_length by done.
  apply list_fmap_ext. intros k j Hk.
  apply lookup_seq in Hk as [-> Hk]. simpl. by rewrite decide_True by auto.
Qed.

(** One more success, at a position that had not completed yet. *)
Lemma complete_succeeded_at descs handles D i h :
  length handles = length descs →
  NoDup (i :: D) → (∀ j, j ∈ i :: D → j < length descs) →
  handles !! i = Some h →
  complete (succeeded_at descs handles D) (Loaded i h) =
    (succeeded_at descs handles (i :: D),
     if decide (S (length D) = length descs)
     then Some (Resolved (expected descs handles)) else None).
Proof.
  intros Hlen Hnd Hlt Hh.
  pose proof (distinct_bounded _ _ Hnd Hlt) as Hbound. simpl in Hbound.
  apply NoDup_cons in Hnd as [Hi HndD].
  assert (i < length descs) as Hilt by (apply Hlt; left).
  destruct (lookup_lt_is_Some_2 descs i Hilt) as [d Hd].
  assert (expected descs handles !! i
          = Some {| la_identifier := identifier d; la_handle := h |}) as Hexp.
  { unfold expected. rewrite lookup_zip_with, Hd. simpl. by rewrite Hh. }
  unfold complete. unfold settled at 1. cbn [failure completed total descriptors slots succeeded_at index].
  rewrite bool_decide_false by lia.
  rewrite Hd, list_lookup_fmap, lookup_seq_lt by done. simpl.
  rewrite decide_False by done.
  assert (<[i:=Some {| la_identifier := identifier d; la_handle := h |}]>
            ((λ j, if decide (j ∈ D) then expected descs handles !! j else None)
               <$> seq 0 (length descs))
          = (λ j, if decide (j ∈ i :: D) then expected descs handles !! j else None)
               <$> seq 0 (length descs)) as Hslots.
  { apply list_eq; intros j. destruct (decide (i = j)) as [<-|Hne].
    - rewrite list_lookup_insert_eq by (rewrite length_fmap, length_seq; done).
      rewrite list_lookup_fmap, lookup_seq_lt by done. simpl.
      rewrite decide_True by left. by rewrite Hexp.
    - rewrite list_lookup_insert_ne by done. rewrite !list_lookup_fmap.
      destruct (seq 0 (length descs) !! j) as [k|] eqn:Hseq; simpl; [|done].
      apply lookup_seq in Hseq as [-> _]. simpl. f_equal.
      destruct (decide (j ∈ D)) as [Hj|Hj].
      + by rewrite decide_True by (by right).
      + rewrite decide_False; [done|].
        intros [->|Hj']%elem_of_cons; done. }
  rewrite Hslots.
  change {| descriptors := descs; total := length descs; completed := S (length D);
            failure := None; slots := _ |}
    with (succeeded_at descs handles (i :: D)).
  f_equal. unfold settled. cbn [failure completed total succeeded_at length].
  destruct (decide (S (length D) = length descs)) as [Heq|Hne].
  - rewrite bool_decide_true by done. do 2 f_equal.
    apply retained_full; [done|].
    apply distinct_full; [by apply NoDup_cons|done|done].
  - by rewrite bool_decide_false by done.
Qed.

(** All the remaining loads succeed, each once, in any order. *)
Lemma run_succeeded_at descs handles cs : ∀ D,
  length handles = length descs →
  NoDup ((index <$> cs) ++ D) → (∀ j, j ∈ D → j < length descs) →
  (∀ c, c ∈ cs → ∃ i h, c = Loaded i h ∧ handles !! i = Some h) →
  length D + length cs = length descs →
  run (succeeded_at descs handles D) cs =
    (succeeded_at descs handles (reverse (index <$> cs) ++ D),
     match cs with [] => [] | _ => [Resolved (expected descs handles)] end).
Proof.
  induction cs as [|c cs IH]; intros D Hlen Hnd Hlt Hcs Hcount; [done|].
  destruct (Hcs c) as (i & h & -> & Hh); [left|].
  simpl in Hnd, Hcount. cbn [run].
  assert (NoDup (i :: D)) as HndD.
  { apply NoDup_cons. apply NoDup_cons in Hnd as [Hi Hnd].
    apply NoDup_app in Hnd as (_ & _ & HD). split; [|done].
    intros Hin. apply Hi. apply elem_of_app. by right. }
  assert (∀ j, j ∈ i :: D → j < length descs) as HltD.
  { intros j [->|Hj]%elem_of_cons; [|by apply Hlt].
    apply lookup_lt_Some in Hh. lia. }
  rewrite (complete_succeeded_at descs handles D i h) by done.
  rewrite (IH (i :: D)); [|done|..|done| |simpl; lia].
  - rewrite fmap_cons, reverse_cons, <- app_assoc. simpl. f_equal.
    destruct (decide (S (length D) = length descs)) as [Heq|Hne].
    + destruct cs; [done | simpl in Hcount; lia].
    + destruct cs; [simpl in Hcount; lia | done].
  - apply NoDup_cons in Hnd as [Hi Hnd].
    rewrite <- Permutation_middle. by apply NoDup_cons.
  - intros c Hc. apply Hcs. by right.
Qed.

Lemma index_imap_Loaded handles :
  index <$> imap Loaded handles = seq 0 (length handles).
Proof.
  rewrite fmap_imap. rewrite (imap_ext _ (λ j _, id j)) by done.
  by rewrite imap_seq_0, list_fmap_id.
Qed.

(** C1: for every list of N >= 0 descriptors submitted to the load
    coordinator, if all N loads succeed - the completions being the N
    successes in any order - the continuation fires exactly once, with the
    loaded results in the positional order of the descriptors; the assets
    the manager retains are in that order too. *)
Theorem all_succeed_fires_once_in_order descs handles cs :
  length handles = length descs →
  cs ≡ₚ imap Loaded handles →
  firings descs cs = [Resolved (expected descs handles)]
  ∧ retained (final descs cs) = expected descs handles.
Proof.
  intros Hlen Hperm.
  assert (length cs = length descs) as Hcs.
  { by rewrite Hperm, length_imap. }
  assert (index <$> cs ≡ₚ seq 0 (length descs)) as Hidx.
  { by rewrite Hperm, index_imap_Loaded, Hlen. }
  assert (run (succeeded_at descs handles []) cs
          = (succeeded_at descs handles (reverse (index <$> cs) ++ []),
             match cs with [] => [] | _ => [Resolved (expected descs handles)] end))
    as Hrun.
  { apply run_succeeded_at; [done| | |..|done].
    - rewrite app_nil_r, Hidx. apply NoDup_seq.
    - intros j Hj. by apply elem_of_nil in Hj.
    - intros c Hc. rewrite Hperm in Hc.
      apply elem_of_lookup_imap in Hc as (i & h & -> & Hh). eauto. }
  pose proof (f_equal fst Hrun) as Hb. pose proof (f_equal snd Hrun) as Hos.
  cbn [fst snd] in Hb, Hos. clear Hrun.
  assert (∀ j, j < length descs → j ∈ reverse (index <$> cs) ++ []) as Hfull.
  { intros j Hj. rewrite app_nil_r, elem_of_reverse, Hidx. apply elem_of_seq. lia. }
  split.
  - unfold firings. rewrite (surjective_pairing (awaitAll descs)).
    rewrite (awaitAll_succeeded_at descs handles), Hos.
    unfold awaitAll, settled. cbn [snd failure completed total].
    destruct cs as [|c cs].
    + simpl in Hcs. rewrite bool_decide_true by done. simpl. do 2 f_equal.
      destruct descs; [|done]. by destruct handles.
    + simpl in Hcs. by rewrite bool_decide_false by lia.
  - unfold final. rewrite (awaitAll_succeeded_at descs handles), Hb.
      by apply retained_full.
Qed.

End Facts.

Lemma all_succeed_fires_once_in_order_witness :
  firings Game.modelDescriptors [Loaded 1 8; Loaded 0 7]
    = [Resolved (expected Game.modelDescriptors [7; 8])]
  ∧ retained (final Game.modelDescriptors [Loaded 1 8; Loaded 0 7])
    = expected Game.modelDescriptors [7; 8].
Proof.
  apply (all_succeed_fires_once_in_order Game.modelDescriptors [7; 8]).
  - reflexivity.
  - simpl. apply perm_swap.
Defined.

End LoadCoordinatorFacts.

(** ** The load coordinator: failure *)

Module LoadFailureFacts.
Import LoadCoordinator.

Section Facts.
Context {Handle : Type}.
Implicit Types (descs : list AssetDescriptor) (b : LoadBatch Handle).
Implicit Types (cs : list (Completion Handle)).

Lemma filled_le {A : Type} (l : list (option A)) : length (omap id l) ≤ length l.
Proof. induction l as [|[x|] l IH]; csimpl; lia. Qed.

Lemma filled_lt {A : Type} (l : list (option A)) i :
  l !! i = Some None → length (omap id l) < length l.
Proof.
  revert i. induction l as [|o l IH]; intros [|i] Hi; simpl in Hi; try done.
  - injection Hi as ->. csimpl. pose proof (filled_le l). lia.
  - specialize (IH _ Hi). destruct o; csimpl; lia.
Qed.

Lemma filled_insert {A : Type} (l : list (option A)) i x :
  l !! i = Some None → length (omap id (<[i:=Some x]> l)) = S (length (omap id l)).
Proof.
  revert i. induction l as [|o l IH]; intros [|i] Hi; simpl in Hi; try done.
  - by injection Hi as ->.
  - specialize (IH _ Hi). destruct o; csimpl; lia.
Qed.

(** While the slot of a load is empty the batch cannot be complete. *)
Lemma consistent_unsettled b i :
  consistent b → slots b !! i = Some None → settled b = false.
Proof.
  intros (Hs & _ & Hc & Hf) Hi. unfold settled. rewrite Hf.
  apply bool_decide_false. apply filled_lt in Hi. unfold retained in Hc. lia.
Qed.

Lemma complete_other_Loaded b i j h :
  consistent b → slots b !! i = Some None → j ≠ i →
  ∃ b', complete b (Loaded j h) = (b', None)
        ∧ consistent b' ∧ slots b' !! i = Some None
        ∧ descriptors b' = descriptors b.
Proof.
  intros Hb Hi Hne. unfold complete.
  rewrite (consistent_unsettled b i) by done. cbn [index].
  destruct (descriptors b !! j) as [d|] eqn:Hd; [|by eauto].
  destruct (slots b !! j) as [[a|]|] eqn:Hj; [by eauto| |by eauto].
  set (b' := {| descriptors := descriptors b; total := total b;
                completed := S (completed b); failure := None;
                slots := <[j:=Some {| la_identifier := identifier d; la_handle := h |}]>
                           (slots b) |}).
  assert (slots b' !! i = Some None) as Hi'.
  { unfold b'. cbn [slots]. by rewrite list_lookup_insert_ne. }
  assert (consistent b') as Hb'.
  { destruct Hb as (Hs & Hd' & Hc & Hf). unfold consistent, retained, b'.
    cbn [slots total descriptors completed failure].
    rewrite length_insert, filled_insert by done. unfold retained in Hc.
    repeat split; [done|done|lia]. }
  exists b'. by rewrite (consistent_unsettled b' i).
Qed.

(** What one completion can do to a batch. *)
Lemma complete_outcome b c b' o :
  complete b c = (b', o) →
  descriptors b' = descriptors b ∧ total b' = total b
  ∧ (settled b = true → b' = b ∧ o = None)
  ∧ (∀ r, o = Some (Resolved r) →
       settled b = false ∧ failure b' = None ∧ completed b' = total b')
  ∧ (∀ e, o = Some (Rejected e) → settled b = false ∧ failure b' = Some e).
Proof.
  unfold complete. destruct (settled b) eqn:Hs.
  - intros [= <- <-]. by split_and!.
  - destruct (descriptors b !! index c) as [d|]; [|intros [= <- <-]; by split_and!].
    destruct (slots b !! index c) as [[a|]|]; [intros [= <- <-]; by split_and!| |
                                                 intros [= <- <-]; by split_and!].
    destruct c as [i h|i cause].
    + match goal with |- context [settled ?x] => set (b1 := x) end.
      destruct (settled b1) eqn:Hs1; intros [= <- <-]; unfold b1 in *;
        cbn [descriptors total]; split_and!; try done.
      intros r _. unfold settled in Hs1. cbn [failure completed total] in Hs1.
      apply bool_decide_eq_true in Hs1. by split_and!.
    + intros [= <- <-]. cbn [descriptors total]. split_and!; [done..|].
      by intros e [= <-].
Qed.

(** Successes elsewhere leave the slot of a pending load empty and fire
    nothing. *)
Lemma run_other_Loaded cs : ∀ b i,
  consistent b → slots b !! i = Some None → i ∉ index <$> cs →
  Forall (λ c, ∃ j h, c = Loaded j h) cs →
  ∃ b', run b cs = (b', [])
        ∧ consistent b' ∧ slots b' !! i = Some None
        ∧ descriptors b' = descriptors b.
Proof.
  induction cs as [|c cs IH]; intros b i Hb Hi Hni Hall; [by eauto|].
  apply Forall_cons in Hall as [(j & h & ->) Hall].
  rewrite fmap_cons in Hni. apply not_elem_of_cons in Hni as [Hne Hni].
  destruct (complete_other_Loaded b i j h) as (b1 & Hc & Hb1 & Hi1 & Hd1); [done..|].
  destruct (IH b1 i) as (b2 & Hr & Hb2 & Hi2 & Hd2); [done..|].
  exists b2. cbn [run]. rewrite Hc, Hr. by rewrite Hd2, Hd1.
Qed.

(** Once a load has failed every later completion is a no-op. *)
Lemma run_failed cs : ∀ b e, failure b = Some e → run b cs = (b, []).
Proof.
  induction cs as [|c cs IH]; intros b e Hf; [done|].
  cbn [run]. unfold complete, settled. rewrite Hf. by rewrite (IH b e).
Qed.

Lemma first_failure_split cs i cause :
  first_failure cs = Some (i, cause) →
  ∃ pre post, cs = pre ++ Failed i cause :: post
              ∧ Forall (λ c, ∃ j h, c = Loaded j h) pre.
Proof.
  unfold first_failure. induction cs as [|[j h|j c] cs IH]; intros H; [done|..].
  - destruct (IH H) as (pre & post & -> & Hpre).
    exists (Loaded j h :: pre), post. split; [done|].
    apply Forall_cons. eauto.
  - simpl in H. injection H as -> ->. by exists [], cs.
Qed.

Lemma run_app b cs1 cs2 :
  run b (cs1 ++ cs2) =
    ((run (run b cs1).1 cs2).1, (run b cs1).2 ++ (run (run b cs1).1 cs2).2).
Proof.
  revert b. induction cs1 as [|c cs1 IH]; intros b.
  - simpl. by destruct (run b cs2).
  - cbn [run app]. destruct (complete b c) as [b1 o]. rewrite IH.
    destruct (run b1 cs1) as [b2 os]. cbn [fst snd].
    destruct (run b2 cs2) as [b3 os']. cbn [fst snd]. by rewrite app_assoc.
Qed.

(** The first failure of a batch in which every load completes at most
    once: the aggregate is rejected exactly once, with the identifier of
    the failing asset and its cause, and the batch keeps that failure. *)
Lemma first_failure_rejects descs cs i cause d :
  NoDup (index <$> cs) →
  first_failure cs = Some (i, cause) →
  descs !! i = Some d →
  firings descs cs = [Rejected {| err_identifier := identifier d; err_cause := cause |}]
  ∧ failure (final descs cs)
    = Some {| err_identifier := identifier d; err_cause := cause |}.
Proof.
  intros Hnd Hff Hd.
  destruct (first_failure_split cs i cause Hff) as (pre & post & -> & Hpre).
  assert (i < length descs) as Hi by by eapply lookup_lt_Some.
  set (b0 := (awaitAll (Handle:=Handle) descs).1).
  assert (consistent b0) as Hb0.
  { unfold consistent, retained, b0, awaitAll. cbn [fst slots total descriptors completed failure].
    rewrite length_replicate. repeat split.
    clear. induction (length descs); [done|]. by rewrite replicate_S. }
  assert (slots b0 !! i = Some None) as Hi0.
  { unfold b0, awaitAll. cbn [fst slots]. by apply lookup_replicate_2. }
  assert (i ∉ index <$> pre) as Hni.
  { rewrite fmap_app, fmap_cons in Hnd. cbn [index] in Hnd.
    apply NoDup_app in Hnd as (_ & Hdisj & _). intros Hin.
    apply (Hdisj i Hin). left. }
  destruct (run_other_Loaded pre b0 i Hb0 Hi0 Hni Hpre) as (b1 & Hr1 & Hb1 & Hi1 & Hd1).
  set (e := {| err_identifier := identifier d; err_cause := cause |}).
  assert (complete b1 (Failed i cause)
          = ({| descriptors := descriptors b1; total := total b1;
                completed := completed b1; failure := Some e; slots := slots b1 |},
             Some (Rejected e))) as Hc.
  { unfold complete. rewrite (consistent_unsettled b1 i) by done. cbn [index].
    rewrite Hd1. unfold b0, awaitAll. cbn [fst descriptors]. by rewrite Hd, Hi1. }
  assert (run b0 (pre ++ Failed i cause :: post)
          = ({| descriptors := descriptors b1; total := total b1;
                completed := completed b1; failure := Some e; slots := slots b1 |},
             [Rejected e])) as Hrun.
  { rewrite run_app, Hr1. cbn [fst snd run]. rewrite Hc.
    by rewrite (run_failed post _ e). }
  split.
  - unfold firings. rewrite (surjective_pairing (awaitAll descs)).
    fold b0. rewrite Hrun. cbn [snd]. unfold awaitAll. cbn [snd].
    change (settled _) with (settled b0).
    by rewrite (consistent_unsettled b0 i).
  - unfold final. fold b0. by rewrite Hrun.
Qed.


End Facts.
End LoadFailureFacts.

(** ** Scene composition *)

Module SceneComposerFacts.
Import LoadCoordinator SceneComposer.

Section Facts.
Context {Handle : Type}.
Implicit Types (g : SceneGraph Handle) (things : list (LoadedAsset Handle)).

Lemma empty_graph_indexed : indexed (Handle:=Handle) empty_graph.
Proof.
  split; [constructor|]. intros id. unfold known. simpl.
  rewrite lookup_empty, elem_of_nil. split; [apply is_Some_None|done].
Qed.

Lemma addThings_app g things1 things2 :
  addThings g (things1 ++ things2) =
    match addThings g things1 with
    | inl e => inl e
    | inr g' => addThings g' things2
    end.
Proof.
  revert g. induction things1 as [|a things1 IH]; intros g; [done|].
  cbn [app addThings]. destruct (addThing g a); [done|apply IH].
Qed.

(** Whatever the graph, a successful [addThings] appends the identifiers
    of the things to the traversal. *)
Lemma addThings_known things : ∀ g g',
  addThings g things = inr g' →
  known g' = known g ++ (la_identifier <$> things).
Proof.
  unfold known.
  induction things as [|a things IH]; intros g g' H; cbn [addThings] in H.
  - injection H as <-. by rewrite app_nil_r.
  - unfold addThing in H. destruct (node_index g !! la_identifier a); [discriminate H|].
    apply IH in H. rewrite H. cbn [traversal]. by rewrite fmap_app, <- app_assoc.
Qed.

Lemma compose_addThings things1 things2 things3 :
  compose things1 things2 things3 = addThings empty_graph (things1 ++ things2 ++ things3).
Proof.
  unfold compose. rewrite addThings_app.
  destruct (addThings empty_graph things1) as [e|g1]; [done|].
  by rewrite addThings_app.
Qed.

(** What [addThings] answers on an indexed graph: either the first
    identifier that is already present, or the graph extended by all the
    things in their order. *)
Lemma addThings_spec things : ∀ g,
  indexed g →
  match addThings g things with
  | inl e =>
      ∃ seen rest, la_identifier <$> things = seen ++ dup_identifier e :: rest
                   ∧ NoDup (known g ++ seen) ∧ dup_identifier e ∈ known g ++ seen
  | inr g' =>
      indexed g' ∧ known g' = known g ++ (la_identifier <$> things)
  end.
Proof.
  induction things as [|a things IH]; intros g [Hnd Hidx].
  - simpl. split; [done|]. by rewrite app_nil_r.
  - cbn [addThings]. unfold addThing.
    destruct (node_index g !! la_identifier a) as [n|] eqn:Hlook.
    + exists [], (la_identifier <$> things). rewrite app_nil_r.
      split; [done|]. split; [done|]. apply Hidx. eauto.
    + set (g1 := {| traversal := _; node_index := _ |}).
      assert (la_identifier a ∉ known g) as Hfresh.
      { intros Hin. apply Hidx in Hin as [? Hin]. congruence. }
      assert (known g1 = known g ++ [la_identifier a]) as Hk1.
      { unfold known, g1. cbn [traversal]. by rewrite fmap_app. }
      assert (indexed g1) as Hg1.
      { split.
        - rewrite Hk1. apply NoDup_app. split; [done|]. split; [|apply NoDup_singleton].
          intros x Hx Hx'. apply list_elem_of_singleton in Hx' as ->. done.
        - intros id. rewrite Hk1. unfold g1. cbn [node_index].
          rewrite lookup_insert_is_Some, elem_of_app, list_elem_of_singleton, Hidx.
          intuition congruence. }
      specialize (IH g1 Hg1). destruct (addThings g1 things) as [e|g2].
      * destruct IH as (seen & rest & Hids & Hnd' & Hin).
        exists (la_identifier a :: seen), rest. rewrite Hk1, <- app_assoc in Hnd', Hin.
        rewrite fmap_cons, Hids. done.
      * destruct IH as [Hg2 Hk2]. split; [done|].
        by rewrite Hk2, Hk1, <- app_assoc.
Qed.

(** Distinct identifiers compose: the graph has one node per asset, in
    the order geometries, models, lights, and every identifier is found. *)
Lemma compose_distinct things1 things2 things3 :
  NoDup (la_identifier <$> things1 ++ things2 ++ things3) →
  ∃ g, compose things1 things2 things3 = inr g
       ∧ known g = la_identifier <$> things1 ++ things2 ++ things3
       ∧ indexed g.
Proof.
  intros Hnd. rewrite compose_addThings.
  pose proof (addThings_spec (things1 ++ things2 ++ things3) empty_graph
                empty_graph_indexed) as H.
  destruct (addThings empty_graph (things1 ++ things2 ++ things3)) as [e|g].
  - destruct H as (seen & rest & Hids & Hnd' & Hin). exfalso.
    rewrite Hids in Hnd. unfold known in *. simpl in *.
    apply NoDup_app in Hnd as (_ & Hdisj & _). apply (Hdisj _ Hin). left.
  - destruct H as [Hg Hk]. exists g. by rewrite Hk.
Qed.

(** C4: a composition call whose geometry, model and light collections
    contain a duplicate identifier, within one collection or across them,
    fails with a DuplicateIdentifierError instead of producing a graph; the
    error names the first identifier that repeats an earlier one. *)
Theorem duplicate_identifier_fails_fast things1 things2 things3 :
  ¬ NoDup (la_identifier <$> things1 ++ things2 ++ things3) →
  ∃ id seen rest,
    compose things1 things2 things3 = inl {| dup_identifier := id |}
    ∧ la_identifier <$> things1 ++ things2 ++ things3 = seen ++ id :: rest
    ∧ NoDup seen ∧ id ∈ seen.
Proof.
  intros Hdup. rewrite compose_addThings.
  pose proof (addThings_spec (things1 ++ things2 ++ things3) empty_graph
                empty_graph_indexed) as H.
  destruct (addThings empty_graph (things1 ++ things2 ++ things3)) as [[id]|g].
  - destruct H as (seen & rest & Hids & Hnd & Hin). by exists id, seen, rest.
  - destruct H as [[Hnd _] Hk]. rewrite Hk in Hnd. done.
Qed.

End Facts.

Lemma duplicate_identifier_fails_fast_witness :
  ∃ id seen rest,
    compose [ {| la_identifier := "Ground"; la_handle := 1 |} ]
            [ {| la_identifier := "Fox"; la_handle := 2 |} ]
            [ {| la_identifier := "Fox"; la_handle := 3 |} ]
      = inl {| dup_identifier := id |}
    ∧ ["Ground"; "Fox"; "Fox"] = seen ++ id :: rest
    ∧ NoDup seen ∧ id ∈ seen.
Proof.
  apply (duplicate_identifier_fails_fast
           [ {| la_identifier := "Ground"; la_handle := 1 |} ]
           [ {| la_identifier := "Fox"; la_handle := 2 |} ]
           [ {| la_identifier := "Fox"; la_handle := 3 |} ]).
  simpl. intros Hnd. apply NoDup_cons in Hnd as [_ Hnd].
  apply NoDup_cons in Hnd as [Hnd _]. apply Hnd. left.
Defined.

End SceneComposerFacts.

(** ** Raycast resolution *)

Module RaycastResolverFacts.
Import LoadCoordinator SceneComposer RaycastResolver.

Section Facts.
Context {Handle : Type}.
Variable intersect : PointerSample → Camera → SceneGraphNode Handle → option Q.
Implicit Types (p : PointerSample) (c : Camera) (nodes : list (SceneGraphNode Handle)).

Lemma nearest_snoc p c nodes n :
  nearest intersect p c (nodes ++ [n]) = consider intersect p c (nearest intersect p c nodes) n.
Proof. unfold nearest. by rewrite foldl_app. Qed.

(** The best hit after a traversal: none exactly when no node is hit;
    otherwise the hit of some node that is at most as far as every other
    hit and strictly nearer than every hit met before it. *)
Lemma nearest_spec p c nodes :
  match nearest intersect p c nodes with
  | None => ∀ n, n ∈ nodes → intersect p c n = None
  | Some h =>
      ∃ k n, nodes !! k = Some n
             ∧ hit_identifier h = node_identifier n
             ∧ intersect p c n = Some (hit_distance h)
             ∧ ∀ j n' d', nodes !! j = Some n' → intersect p c n' = Some d' →
                 (hit_distance h <= d')%Q ∧ (j < k → (hit_distance h < d')%Q)
  end.
Proof.
  induction nodes as [|x nodes IH] using rev_ind.
  - simpl. intros n Hn. by apply elem_of_nil in Hn.
  - rewrite nearest_snoc. unfold consider.
    destruct (intersect p c x) as [dx|] eqn:Hx.
    + destruct (nearest intersect p c nodes) as [b|]; simpl.
      * destruct IH as (k & n & Hk & Hid & Hd & Hmin).
        pose proof (lookup_lt_Some _ _ _ Hk) as Hklt.
        destruct (Qlt_le_dec dx (hit_distance b)) as [Hlt|Hle].
        -- exists (length nodes), x. simpl.
           rewrite lookup_app_r, Nat.sub_diag by lia.
           split_and!; [done..|].
           intros j n' d' Hj Hd'.
           destruct (decide (j < length nodes)) as [Hjlt|Hjge].
           ++ rewrite lookup_app_l in Hj by done.
              destruct (Hmin j n' d' Hj Hd') as [Hle _].
              split; [|intros _]; lra.
           ++ pose proof (lookup_lt_Some _ _ _ Hj) as Hjlt.
              rewrite length_app in Hjlt. simpl in Hjlt.
              assert (j = length nodes) as -> by lia.
              rewrite lookup_app_r, Nat.sub_diag in Hj by lia.
              injection Hj as <-. rewrite Hx in Hd'. injection Hd' as <-.
              split; [lra|lia].
        -- exists k, n. rewrite lookup_app_l by done.
           split_and!; [done..|].
           intros j n' d' Hj Hd'.
           destruct (decide (j < length nodes)) as [Hjlt|Hjge].
           ++ rewrite lookup_app_l in Hj by done. by apply (Hmin j n').
           ++ pose proof (lookup_lt_Some _ _ _ Hj) as Hjlt.
              rewrite length_app in Hjlt. simpl in Hjlt.
              assert (j = length nodes) as -> by lia.
              rewrite lookup_app_r, Nat.sub_diag in Hj by lia.
              injection Hj as <-. rewrite Hx in Hd'. injection Hd' as <-.
              split; [done|lia].
      * exists (length nodes), x. simpl.
        rewrite lookup_app_r, Nat.sub_diag by lia.
        split_and!; [done..|].
        intros j n' d' Hj Hd'.
        destruct (decide (j < length nodes)) as [Hjlt|Hjge].
        -- rewrite lookup_app_l in Hj by done.
           apply list_elem_of_lookup_2 in Hj. rewrite (IH n' Hj) in Hd'. done.
        -- pose proof (lookup_lt_Some _ _ _ Hj) as Hjlt.
           rewrite length_app in Hjlt. simpl in Hjlt.
           assert (j = length nodes) as -> by lia.
           rewrite lookup_app_r, Nat.sub_diag in Hj by lia.
           injection Hj as <-. rewrite Hx in Hd'. injection Hd' as <-.
           split; [lra|lia].
    + destruct (nearest intersect p c nodes) as [b|].
      * destruct IH as (k & n & Hk & Hid & Hd & Hmin).
        pose proof (lookup_lt_Some _ _ _ Hk) as Hklt.
        exists k, n. rewrite lookup_app_l by done.
        split_and!; [done..|].
        intros j n' d' Hj Hd'.
        destruct (decide (j < length nodes)) as [Hjlt|Hjge].
        -- rewrite lookup_app_l in Hj by done. by apply (Hmin j n').
        -- pose proof (lookup_lt_Some _ _ _ Hj) as Hjlt.
           rewrite length_app in Hjlt. simpl in Hjlt.
           assert (j = length nodes) as -> by lia.
           rewrite lookup_app_r, Nat.sub_diag in Hj by lia.
           injection Hj as <-. congruence.
      * intros n [Hn|Hn]%elem_of_app; [by apply IH|].
        apply list_elem_of_singleton in Hn as ->. done.
Qed.

(** C5: for every pointer sample, camera and scene graph, the resolver
    answers the identifier of a hit node whose ray-parameter distance is
    minimal among all hits, the first such node in traversal order; it
    answers "none" exactly when no node is hit, in particular on the empty
    scene graph.  (The resolver is a total function: it cannot raise.) *)
Theorem resolve_minimum_distance p c (g : SceneGraph Handle) :
  resolve intersect p c empty_graph = None
  ∧ (resolve intersect p c g = None ↔ ∀ n, n ∈ traversal g → intersect p c n = None)
  ∧ (∀ id, resolve intersect p c g = Some id →
       ∃ k n d, traversal g !! k = Some n
                ∧ node_identifier n = id
                ∧ intersect p c n = Some d
                ∧ ∀ j n' d', traversal g !! j = Some n' → intersect p c n' = Some d' →
                    (d <= d')%Q ∧ ((d' == d)%Q → k ≤ j)).
Proof.
  pose proof (nearest_spec p c (traversal g)) as H. unfold resolve.
  split; [done|]. split.
  - destruct (nearest intersect p c (traversal g)) as [h|]; simpl; [|done].
    split; [done|]. intros Hnone.
    destruct H as (k & n & Hk & _ & Hd & _).
    apply list_elem_of_lookup_2 in Hk. rewrite (Hnone n Hk) in Hd. done.
  - intros id Hid.
    destruct (nearest intersect p c (traversal g)) as [h|]; simpl in Hid; [|done].
    injection Hid as <-.
    destruct H as (k & n & Hk & Hid & Hd & Hmin).
    exists k, n, (hit_distance h). split_and!; [done..|]. intros j n' d' Hj Hd'. split.
    + by apply (Hmin j n').
    + intros Heq. destruct (decide (k ≤ j)) as [|Hlt]; [done|].
      destruct (Hmin j n' d') as [_ Hstrict]; [done..|].
      assert (hit_distance h < d')%Q by (apply Hstrict; lia). lra.
Qed.

End Facts.

(** Two overlapping nodes A (distance 3) and B (distance 5) along the ray:
    the resolver answers A, whichever comes first in the traversal. *)
Example resolve_nearer_of_two :
  let A := {| node_identifier := "A"; node_asset := {| la_identifier := "A"; la_handle := tt |} |} in
  let B := {| node_identifier := "B"; node_asset := {| la_identifier := "B"; la_handle := tt |} |} in
  let intersect := λ (_ : PointerSample) (_ : Camera) (n : SceneGraphNode unit),
        if String.eqb (node_identifier n) "A" then Some 3%Q else Some 5%Q in
  let cam := {| cam_position := None; cam_target := None; aspect := None |} in
  resolve intersect (0, 0)%Q cam {| traversal := [B; A]; node_index := ∅ |} = Some "A"
  ∧ resolve intersect (0, 0)%Q cam {| traversal := [A; B]; node_index := ∅ |} = Some "A".
Proof. split; reflexivity. Qed.

End RaycastResolverFacts.

(** ** The orchestrator *)

Module GameFacts.
Import LoadCoordinator SceneComposer RaycastResolver Game.

Section Facts.
Context {Handle : Type}.
Variable create : string → Handle.
Variable intersect : PointerSample → Camera → SceneGraphNode Handle → option Q.

Abbreviation World := (World (Handle:=Handle)).
Abbreviation step := (step create intersect).
Abbreviation run := (run create intersect).

#[local] Arguments complete : simpl never.
#[local] Arguments addThings : simpl never.
#[local] Arguments resolve : simpl never.
#[local] Arguments normalize : simpl never.
#[local] Arguments describe : simpl never.

Lemma awaitAll_modelDescriptors :
  awaitAll (Handle:=Handle) modelDescriptors = (submitted, None).
Proof. reflexivity. Qed.

Ltac exec :=
  repeat (progress unfold dispatch, catch_console_error, onCoverClick, onPermissionResponse,
    init, loadModels, onModelsLoaded, Game._loop, resizeViewport, onTouchEnd,
    requestAnimationFrame, controlsUpdate, rendererRender, statsBegin, statsEnd, addLog,
    sceneAddThings, setPosition, lookAtSomething, initDeviceOrientation,
    getModelReferenceByIdentifier, loadGeometries, createSpotLight, when, issue,
    modify, get, throw, models);
  rewrite ?awaitAll_modelDescriptors;
  unfold mbind, M_bind, mret, M_ret; cbn.

(* The scrutinee on which evaluation is stuck first. *)
Ltac scrutinee t :=
  lazymatch t with
  | match ?x with _ => _ end => match constr:(Set) with _ => scrutinee x | _ => x end
  | ?f ?a => match constr:(Set) with _ => scrutinee a | _ => scrutinee f end
  end.

Ltac case_step :=
  match goal with |- ?G => let x := scrutinee G in case_eq x; intros end;
  try subst; cbn.

Ltac cases := repeat (case_step; try congruence).

(** *** Traces *)

Lemma snoc_split {A : Type} (t pre post : list A) (c x : A) :
  t ++ [c] = pre ++ x :: post →
  (post = [] ∧ pre = t ∧ x = c) ∨ (∃ post', post = post' ++ [c] ∧ t = pre ++ x :: post').
Proof.
  destruct post as [|y post _] using rev_ind; intros Heq.
  - apply app_inj_tail in Heq as [-> ->]. by left.
  - right. exists post. change (x :: post ++ [y]) with ((x :: post) ++ [y]) in Heq.
    rewrite app_assoc in Heq. by apply app_inj_tail in Heq as [-> ->].
Qed.

Lemma sublist_snoc (l t : list call) c : l `sublist_of` t → l `sublist_of` t ++ [c].
Proof. intros H. by apply sublist_inserts_r. Qed.

Lemma set_up_snoc t c : set_up t → set_up (t ++ [c]).
Proof. intros (g & m & l & H). exists g, m, l. by apply sublist_snoc. Qed.

Lemma set_up_setupCalls t g m l :
  initCalls `sublist_of` t →
  set_up ((((((t ++ [AddThings g]) ++ [AddThings m]) ++ [AddThings l])
             ++ [SetPosition 3 5 10]) ++ [LookAtSomething 0 5 0]) ++ [InitDeviceOrientation]).
Proof.
  intros H. exists g, m, l. rewrite <- !app_assoc. by apply sublist_app.
Qed.

Lemma ordered_snoc_idle t c :
  ordered t → is_tick c = false → is_render c = false → ordered (t ++ [c]).
Proof.
  intros Ht Htick Hrender pre x post Heq Hx.
  apply snoc_split in Heq as [(-> & -> & ->)|(post' & -> & ->)].
  - destruct Hx; congruence.
  - by apply (Ht pre x post').
Qed.

Lemma ordered_snoc_ready t c :
  ordered t → set_up t → well_rendered c → ordered (t ++ [c]).
Proof.
  intros Ht Hset Hc pre x post Heq Hx.
  apply snoc_split in Heq as [(-> & -> & ->)|(post' & -> & ->)].
  - done.
  - by apply (Ht pre x post').
Qed.

Lemma ordered_idle t :
  Forall (λ c, is_tick c = false ∧ is_render c = false) t → ordered t.
Proof.
  intros Hall pre c post -> Hc. apply Forall_app in Hall as [_ Hall].
  apply Forall_cons in Hall as [[? ?] _]. destruct Hc; congruence.
Qed.

Lemma Forall_snoc {A : Type} (P : A → Prop) t c : Forall P t → P c → Forall P (t ++ [c]).
Proof. intros. apply Forall_app. split; [done|]. by apply Forall_singleton. Qed.

Lemma added_app (w w' : World) t : trace w' = trace w ++ t → added w w' = t.
Proof. intros H. unfold added. by rewrite H, drop_app_length. Qed.

(** *** The constructor and the steps *)

Lemma constructor_invariant isDebugMode highPerf support width height :
  invariant (constructor isDebugMode highPerf support width height : World).
Proof.
  unfold invariant, debug_fields, gated, batch_ok, loop_safe, stopped, uncomposed.
  destruct isDebugMode as [[]|]; cbn.
  all: split_and!; try done.
  all: try (split; [by intros [? ?]|done]).
  all: try (intros; lia).
  all: try by (repeat constructor).
  all: apply ordered_idle; by repeat constructor.
Qed.

Lemma prefix_snoc (t t' : list call) c : t `prefix_of` t' → t `prefix_of` t' ++ [c].
Proof. apply prefix_app_r. Qed.

Lemma step_evolves (w : World) s eng : evolves w s (step w (s, eng)).
Proof.
  destruct w as [dbg hp mouse st logs panel rend geos batch lts scn cam ctrl sup cov pend
                 frm iw ih tr].
  unfold evolves, same_constants.
  destruct s; unfold Game.step; cbn.
  4: destruct batch as [b|]; [destruct (complete b c) as [b' [[r|e]|]] eqn:Hc|].
  all: exec; cases.
  all: split_and!; try done; try lia.
  all: try (repeat apply prefix_snoc; done).
  all: try (intros; by left).
  all: try (intros _; right; left; done).
  all: try (intros _; right; done).
  intros _. right. right. split; [|done]. f_equal. by apply String.eqb_eq.
Qed.

Lemma step_same_constants (w : World) ev : same_constants w (step w ev).
Proof. destruct ev as [s eng]. apply step_evolves. Qed.

(** *** Preservation of the invariant, handler by handler *)

Ltac open_invariant :=
  unfold invariant, debug_fields, gated, batch_ok, loop_safe, stopped, uncomposed, ready in *.

Lemma sublist_initCalls (t : list call) :
  initCalls `sublist_of`
    ((t ++ [CreateSpotLight "MainSpotLight"])
       ++ [LoadGeometries ["Ground"; "Skybox"; "GreenCube"; "BlueWall"]])
      ++ [LoadModels ["Fox"; "IceTruck"]].
Proof. rewrite <- !app_assoc. by apply sublist_inserts_l. Qed.

(* Goals about a trace that grew by single calls. *)
Ltac trace_tac :=
  repeat first
    [ assumption
    | apply sublist_initCalls
    | apply sublist_snoc
    | apply set_up_setupCalls
    | apply set_up_snoc
    | apply Forall_snoc; [|reflexivity]
    | apply ordered_snoc_idle; [|reflexivity|reflexivity]
    | apply ordered_snoc_ready; [| |first [exact I | done]] ].

(* What the invariant says once the case of the world is known. *)
Ltac learn :=
  try match goal with
      | Hcover : cover ?w = true → _, E : cover ?w = true |- _ =>
          destruct (Hcover E) as [? ?]
      end;
  try match goal with
      | Hperm : permissionPending ?w = true → _, E : permissionPending ?w = true |- _ =>
          destruct (Hperm E) as [? ?]
      end;
  try match goal with
      | Hstop : renderer ?w = None → _, E : renderer ?w = None |- _ =>
          destruct (Hstop E) as (_ & ? & (? & ? & ? & ? & ?) & ?)
      end.

Ltac leaf :=
  lazymatch goal with
  | |- ordered _ => trace_tac
  | |- _ > 0 → _ =>
      intros Hf;
      first [ learn; lia
            | match goal with
              | Hready : frames _ > 0 → _ |- _ =>
                  destruct (Hready Hf) as (? & ? & ? & ? & ?); split_and!; eauto; trace_tac
              end ]
  | |- _ ≠ None → _ => intros; trace_tac; auto
  | |- is_Some _ ↔ _ =>
      match goal with
      | Hlogs : is_Some (_debuglogs _) ↔ _ |- _ =>
          rewrite <- Hlogs; split; intros; first [ eauto | congruence ]
      end
  | |- _ ↔ _ =>
      split; intros Hx;
      first [ congruence
            | match goal with
              | Hbr : modelBatch _ = None ↔ _ |- _ => apply Hbr in Hx; congruence
              end ]
  | |- _ = _ → _ =>
      intros; learn;
      first [ congruence | split_and!; first [ done | congruence | trace_tac ] ]
  | |- ∀ b, _ = Some b → _ =>
      first
        [ intros b Hb;
          match goal with
          | Hbatch : ∀ b, modelBatch _ = Some b → _ |- _ =>
              destruct (Hbatch b Hb) as (? & ? & [(? & ? & ? & ? & ?)|?])
          end;
          split_and!; auto; first [ by right | left; split_and!; first [ lia | trace_tac ] ]
        | intros b Hb; injection Hb as <-; split_and!; [reflexivity..|];
          left; split_and!; trace_tac ]
  end.

Lemma loop_invariant eng (w : World) n :
  invariant w → frames w = S n → invariant (dispatch (Game._loop eng) (set_frames n w)).
Proof.
  intros Hinv Hframes. open_invariant.
  destruct Hinv as ((Hstats & Hlogs) & (Hstop & Hcover & Hperm) & (Hbr & Hbatch)
                    & (Hinit & Hready & Hord)).
  destruct Hready as (Hr & Hc & Hpos & Hscene & Hset); [lia|].
  destruct Hr as [r Hr], Hc as [c Hc].
  assert (_debugMode w = true → ∃ n, stats w = Some n) as Hs.
  { intros Hd. apply Hstats in Hd. exact Hd. }
  exec. cases.
  all: try (destruct Hs as [? ?]; [congruence|done]).
  all: split_and!; try done.
  all: lazymatch goal with
       | |- ordered _ => trace_tac
       | |- _ > 0 → _ => intros _; split_and!; eauto; trace_tac
       | |- _ ≠ None → _ => intros; trace_tac; auto
       | |- _ = None → _ => intros; congruence
       | |- ∀ b, _ = Some b → _ =>
           intros b Hb; destruct (Hbatch b Hb) as (? & ? & [(? & _)|?]); [lia|];
           split_and!; auto
       end.
Qed.

(** The listeners that neither compose nor tick. *)
Lemma listener_invariant (w : World) s eng :
  invariant w →
  match s with ModelCompletion _ | AnimationFrame => False | _ => True end →
  invariant (step w (s, eng)).
Proof.
  intros Hinv Hs. open_invariant.
  destruct Hinv as ((Hstats & Hlogs) & (Hstop & Hcover & Hperm) & (Hbr & Hbatch)
                    & (Hinit & Hready & Hord)).
  destruct s; try done; unfold Game.step.
  all: exec; cases; learn; (split_and!; try done); leaf.
Qed.

(** *** The load continuation *)

Lemma addThings_scene_ids (things : list (LoadedAsset Handle)) g g' :
  addThings g things = inr g' →
  scene_ids g' = scene_ids g ++ (la_identifier <$> things).
Proof. apply SceneComposerFacts.addThings_known. Qed.

Lemma head_filter_nonempty {A : Type} (P : A → Prop) `{∀ x, Decision (P x)} (l : list A) a :
  head (filter P l) = Some a → l ≠ [].
Proof. intros Hhead Hl. subst l. by rewrite filter_nil in Hhead. Qed.

Lemma addThings_populated_l (things : list (LoadedAsset Handle)) g g' :
  addThings g things = inr g' → scene_ids g ≠ [] → scene_ids g' ≠ [].
Proof.
  intros H Hg. rewrite (addThings_scene_ids _ _ _ H).
  intros [? _]%app_eq_nil. done.
Qed.

Lemma addThings_populated_r (things : list (LoadedAsset Handle)) g g' :
  addThings g things = inr g' → things ≠ [] → scene_ids g' ≠ [].
Proof.
  intros H Hthings. rewrite (addThings_scene_ids _ _ _ H).
  intros [_ Hnil]%app_eq_nil. by apply fmap_nil_inv in Hnil.
Qed.

Lemma onModelsLoaded_invariant eng (w : World) b :
  debug_fields w → gated w →
  modelBatch w = Some b → descriptors b = modelDescriptors → total b = 2 →
  failure b = None → completed b = total b →
  is_Some (renderer w) → uncomposed w →
  initCalls `sublist_of` trace w → ordered (trace w) →
  invariant (dispatch (onModelsLoaded eng) w).
Proof.
  destruct w as [dbg hp mouse st logs panel rend geos batch lts scn cam ctrl sup cov pend
                 frm iw ih tr].
  open_invariant. cbn.
  intros (Hstats & Hlogs) (Hstop & Hcover & Hperm) -> Hdesc Htotal Hfail Hcompl
    [r ->] (-> & -> & -> & Hpos & Hidle) Hinit Hord.
  assert (dbg = true → ∃ n, st = Some n) as Hs.
  { intros Hd. apply Hstats in Hd. exact Hd. }
  exec; cases.
  all: try (destruct Hs as [? ?]; [congruence|done]).
  all: try match goal with
           | E2 : addThings _ ?things = inr ?s0, E3 : addThings ?s0 _ = inr ?s1,
             Ef : head (filter _ ?things) = Some _ |- _ =>
               assert (scene_ids s1 ≠ [])
                 by (apply (addThings_populated_l _ _ _ E3),
                       (addThings_populated_r _ _ _ E2), (head_filter_nonempty _ _ _ Ef))
           end.
  all: split_and!; try done.
  all: lazymatch goal with
       | |- ordered _ => trace_tac
       | |- _ > 0 → _ => first [ intros; lia | intros _; split_and!; eauto; trace_tac ]
       | |- ∀ b, _ = Some b → _ => intros ? [= <-]; split_and!; [done..|]; by right
       | |- _ ≠ None → _ => intros _; trace_tac
       end.
Qed.

(** *** Every step preserves the invariant *)

Lemma completion_invariant (w : World) c eng :
  invariant w → invariant (step w (ModelCompletion c, eng)).
Proof.
  intros Hinv. unfold Game.step.
  destruct (modelBatch w) as [b|] eqn:Hb; [|done].
  destruct (complete b c) as [b' o] eqn:Hc.
  destruct (LoadFailureFacts.complete_outcome _ _ _ _ Hc)
    as (Hdesc & Htotal & Hsettled & Hresolved & Hrejected).
  pose proof Hinv as ((Hstats & Hlogs) & (Hstop & Hcover & Hperm) & (Hbr & Hbatch)
                      & (Hinit & Hready & Hord)).
  destruct (Hbatch b Hb) as (Hd & Ht & Hcomposed).
  assert (is_Some (renderer w)) as Hrend.
  { assert (renderer w ≠ None) as Hne by (rewrite <- Hbr; congruence).
    destruct (renderer w); [by eauto|done]. }
  assert (invariant (set_modelBatch (Some b') w)
          ∧ (settled b = false → uncomposed w)) as [Hinv' Hunc].
  { split.
    - open_invariant. cbn. split_and!; try done.
      + intros Hr. destruct Hrend as [? ?]. congruence.
      + split; intros Hx; [done|]. destruct Hrend as [? ?]. congruence.
      + intros ? [= <-]. rewrite Hdesc, Htotal. split_and!; [done..|].
        destruct Hcomposed as [?|[Hf Hcompl]]; [by left|right].
        destruct Hsettled as [-> _]; [|done].
        unfold settled. rewrite Hf. by apply bool_decide_eq_true.
      + intros _. apply Hinit. congruence.
    - intros Hs. destruct Hcomposed as [?|[Hf Hcompl]]; [done|].
      unfold settled in Hs. rewrite Hf in Hs. by apply bool_decide_eq_false in Hs. }
  destruct o as [[r|e]|]; [|done..].
  destruct (Hresolved r eq_refl) as (Hs & Hf & Hcompl).
  destruct Hinv' as (_ & Hgated' & _).
  apply (onModelsLoaded_invariant eng _ b'); cbn; try done.
  - congruence.
  - congruence.
  - by apply Hunc.
  - apply Hinit. congruence.
Qed.

Lemma step_invariant (w : World) ev : invariant w → invariant (step w ev).
Proof.
  intros Hinv. destruct ev as [s eng]. destruct s.
  1-3, 6-7: by apply listener_invariant.
  - by apply completion_invariant.
  - unfold Game.step. destruct (frames w) as [|n] eqn:Hf; [done|].
    by apply loop_invariant.
Qed.

Lemma run_snoc (w : World) evs ev : run w (evs ++ [ev]) = step (run w evs) ev.
Proof. unfold Game.run. by rewrite foldl_app. Qed.

Lemma run_invariant (w : World) evs : invariant w → invariant (run w evs).
Proof.
  intros Hinv. induction evs as [|ev evs IH] using rev_ind; [done|].
  rewrite run_snoc. by apply step_invariant.
Qed.

Lemma run_same_constants (w : World) evs : same_constants w (run w evs).
Proof.
  induction evs as [|ev evs IH] using rev_ind.
  - by unfold same_constants.
  - rewrite run_snoc.
    destruct IH as (? & ? & ? & ? & ?).
    destruct (step_same_constants (run w evs) ev) as (? & ? & ? & ? & ?).
    unfold same_constants. split_and!; [congruence..|]. etrans; done.
Qed.

(** *** Reachable worlds *)

Lemma reachable_invariant isDebugMode highPerf support width height evs :
  invariant (run (constructor isDebugMode highPerf support width height) evs).
Proof. apply run_invariant, constructor_invariant. Qed.

Lemma reachable_support isDebugMode highPerf support width height evs :
  deviceOrientation (run (constructor isDebugMode highPerf support width height) evs)
  = support.
Proof.
  by destruct (run_same_constants
                 (constructor isDebugMode highPerf support width height) evs)
    as (_ & _ & _ & -> & _).
Qed.

Lemma reachable_debugMode isDebugMode highPerf support width height evs :
  _debugMode (run (constructor isDebugMode highPerf support width height) evs)
  = default true isDebugMode.
Proof.
  by destruct (run_same_constants
                 (constructor isDebugMode highPerf support width height) evs)
    as (-> & _).
Qed.

Lemma clicked_app evs evs' : clicked evs → clicked (Handle:=Handle) (evs ++ evs').
Proof. intros [eng H]. exists eng. apply elem_of_app. by left. Qed.

Lemma granted_app evs evs' : granted evs → granted (Handle:=Handle) (evs ++ evs').
Proof. intros [eng H]. exists eng. apply elem_of_app. by left. Qed.

(** [init] has run, or a permission request is pending, only after the
    stimuli that lead there. *)
Lemma init_history isDebugMode highPerf support width height evs :
  let w := run (constructor isDebugMode highPerf support width height) evs in
  (renderer w ≠ None →
     clicked evs ∧ support ≠ Undeclared
     ∧ (support = WithRequestPermission → granted evs))
  ∧ (permissionPending w = true → clicked evs ∧ support = WithRequestPermission).
Proof.
  induction evs as [|[s eng] evs IH] using rev_ind; [by split|].
  cbn zeta in *. rewrite run_snoc.
  pose proof (reachable_support isDebugMode highPerf support width height evs) as Hsup.
  destruct (step_evolves (run (constructor isDebugMode highPerf support width height) evs)
              s eng) as (_ & _ & _ & Hrend & Hpend & _).
  destruct IH as [IHr IHp]. rewrite Hsup in Hrend, Hpend.
  assert (s = Click → clicked (evs ++ [(s, eng)])) as Hclick.
  { intros ->. exists eng. apply elem_of_app. right. by left. }
  split.
  - intros Hr. destruct (Hrend Hr) as [Hr'|[(-> & _ & ->)|(-> & Hp)]].
    + destruct (IHr Hr') as (? & ? & Hg). split_and!; [by apply clicked_app|done|].
      intros Hs. by apply granted_app, Hg.
    + split_and!; [by apply Hclick|done|done].
    + destruct (IHp Hp) as [? ->]. split_and!; [by apply clicked_app|done|].
      intros _. exists eng. apply elem_of_app. right. by left.
  - intros Hp. destruct (Hpend Hp) as [Hp'|(-> & _ & ->)].
    + destruct (IHp Hp') as [? ?]. split; [by apply clicked_app|done].
    + split; [by apply Hclick|done].
Qed.


(** *** The pointer handler *)

(** What [onTouchEnd] does, in either mode. *)
Lemma onTouchEnd_outcome (w : World) clientX clientY :
  let p := normalize clientX clientY (innerWidth w) (innerHeight w) in
  let touched := shown (resolve intersect p (camera w) (scene w)) in
  let '(w', r) := onTouchEnd intersect clientX clientY w in
  _mouse w' = p
  ∧ match _debuglogs w with
    | None =>
        r = Threw (TypeError "Cannot read properties of undefined (reading 'addLog')")
        ∧ trace w' = trace w ++ [GetTouchedElementIdentifier p]
    | Some logs =>
        r = Normal tt
        ∧ _debuglogs w' = Some (logs ++ [("RayCast -> " ++ touched)%string])
        ∧ trace w' = trace w ++ [GetTouchedElementIdentifier p;
                                 DebugLogsAddLog ("RayCast -> " ++ touched)%string;
                                 ConsoleLog touched]
    end.
Proof.
  destruct w as [dbg hp mouse st logs panel rend geos batch lts scn cam ctrl sup cov pend
                 frm iw ih tr].
  cbn zeta. exec. destruct logs as [logs|]; cbn; [|done].
  by rewrite <- !app_assoc.
Qed.

(** C9: when the Game is constructed with isDebugMode = false, every
    touchend makes the pointer handler fail: the resolver is invoked, then
    [this._debuglogs.addLog] throws a TypeError, which escapes to the host;
    the handler completes normally exactly when the Game is in debug mode. *)
Theorem touch_fails_outside_debug_mode highPerf support width height evs
    clientX clientY eng :
  let w := run (constructor (Some false) highPerf support width height) evs in
  let p := normalize clientX clientY (innerWidth w) (innerHeight w) in
  let failure := TypeError "Cannot read properties of undefined (reading 'addLog')" in
  (onTouchEnd intersect clientX clientY w).2 = Threw failure
  ∧ added w (step w (TouchEnd clientX clientY, eng))
    = [GetTouchedElementIdentifier p; Uncaught failure]
  ∧ ∀ isDebugMode,
      (onTouchEnd intersect clientX clientY
         (run (constructor isDebugMode highPerf support width height) evs)).2 = Normal tt
      ↔ default true isDebugMode = true.
Proof.
  cbn zeta.
  assert (∀ isDebugMode,
            is_Some (_debuglogs (run (constructor isDebugMode highPerf support width height)
                                   evs))
            ↔ default true isDebugMode = true) as Hlogs.
  { intros d.
    destruct (reachable_invariant d highPerf support width height evs) as ((_ & Hl) & _).
    by rewrite Hl, reachable_debugMode. }
  split_and!.
  - pose proof (onTouchEnd_outcome
                  (run (constructor (Some false) highPerf support width height) evs)
                  clientX clientY) as H.
    cbn zeta in H. destruct (onTouchEnd _ _ _ _) as [w' r].
    destruct (_debuglogs _) as [logs|] eqn:Hl.
    + assert (is_Some (Some logs)) as Hs by eauto.
      rewrite <- Hl in Hs. by apply Hlogs in Hs.
    + by destruct H as (_ & -> & _).
  - apply added_app. unfold Game.step, dispatch.
    pose proof (onTouchEnd_outcome
                  (run (constructor (Some false) highPerf support width height) evs)
                  clientX clientY) as H.
    cbn zeta in H. destruct (onTouchEnd _ _ _ _) as [w' r].
    destruct (_debuglogs _) as [logs|] eqn:Hl.
    + assert (is_Some (Some logs)) as Hs by eauto.
      rewrite <- Hl in Hs. by apply Hlogs in Hs.
    + destruct H as (_ & -> & ->). cbn. by rewrite <- app_assoc.
  - intros d.
    pose proof (onTouchEnd_outcome
                  (run (constructor d highPerf support width height) evs)
                  clientX clientY) as H.
    cbn zeta in H. destruct (onTouchEnd _ _ _ _) as [w' r].
    rewrite <- Hlogs. destruct (_debuglogs _) as [logs|] eqn:Hl.
    + destruct H as (_ & -> & _). split; [by eauto|done].
    + destruct H as (_ & -> & _). split; [done|]. by intros [? ?].
Qed.

(** *** Normalized device coordinates *)

Lemma unit_quotient (x d : Q) : (0 < d → 0 <= x <= d → 0 <= x / d <= 1)%Q.
Proof.
  intros Hd [H0 H1]. split.
  - apply Qle_shift_div_l; [done|]. lra.
  - apply Qle_shift_div_r; [done|]. lra.
Qed.

Lemma quotient_monotone (x y d : Q) : (0 < d → x <= y → x / d <= y / d)%Q.
Proof.
  intros Hd Hxy. apply Qle_shift_div_l; [done|].
  assert (x / d * d == x)%Q as -> by (field; lra). done.
Qed.

Lemma normalize_range (clientX clientY width height : Q) :
  (0 < width)%Q → (0 < height)%Q →
  (0 <= clientX <= width)%Q → (0 <= clientY <= height)%Q →
  let p := normalize clientX clientY width height in
  (-1 <= p.1 <= 1)%Q ∧ (-1 <= p.2 <= 1)%Q.
Proof.
  intros Hw Hh Hx Hy. unfold normalize. cbn.
  pose proof (unit_quotient clientX width Hw Hx).
  pose proof (unit_quotient clientY height Hh Hy).
  split; lra.
Qed.

Lemma normalize_corners (width height : Q) :
  (0 < width)%Q → (0 < height)%Q →
  ((normalize 0 0 width height).1 == -1)%Q
  ∧ ((normalize 0 0 width height).2 == 1)%Q
  ∧ ((normalize width height width height).1 == 1)%Q
  ∧ ((normalize width height width height).2 == -1)%Q.
Proof.
  intros Hw Hh. unfold normalize. cbn. split_and!; field; lra.
Qed.

Lemma normalize_monotone (x1 y1 x2 y2 width height : Q) :
  (0 < width)%Q → (0 < height)%Q → (x1 <= x2)%Q → (y1 <= y2)%Q →
  ((normalize x1 y1 width height).1 <= (normalize x2 y2 width height).1)%Q
  ∧ ((normalize x2 y2 width height).2 <= (normalize x1 y1 width height).2)%Q.
Proof.
  intros Hw Hh Hx Hy. unfold normalize. cbn.
  pose proof (quotient_monotone x1 x2 width Hw Hx).
  pose proof (quotient_monotone y1 y2 height Hh Hy).
  split; lra.
Qed.

(** C8: for every pointer-up event with pixel coordinates inside a
    viewport of positive size, the handler stores the coordinates
    normalized to [-1, 1] - x from -1 at the left edge to 1 at the right
    edge, y from 1 at the top edge to -1 at the bottom edge, both monotone -
    and the first thing it does with them is to invoke the raycast resolver
    on the normalized pointer. *)
Theorem pointer_normalized_before_raycast (w : World) clientX clientY eng :
  (0 < innerWidth w)%Q → (0 < innerHeight w)%Q →
  (0 <= clientX <= innerWidth w)%Q → (0 <= clientY <= innerHeight w)%Q →
  let p := normalize clientX clientY (innerWidth w) (innerHeight w) in
  let w' := step w (TouchEnd clientX clientY, eng) in
  ((-1 <= p.1 <= 1)%Q ∧ (-1 <= p.2 <= 1)%Q)
  ∧ (((normalize 0 0 (innerWidth w) (innerHeight w)).1 == -1)%Q
     ∧ ((normalize 0 0 (innerWidth w) (innerHeight w)).2 == 1)%Q
     ∧ ((normalize (innerWidth w) (innerHeight w) (innerWidth w) (innerHeight w)).1 == 1)%Q
     ∧ ((normalize (innerWidth w) (innerHeight w) (innerWidth w) (innerHeight w)).2 == -1)%Q)
  ∧ (∀ x y, (clientX <= x)%Q → (clientY <= y)%Q →
       (p.1 <= (normalize x y (innerWidth w) (innerHeight w)).1)%Q
       ∧ ((normalize x y (innerWidth w) (innerHeight w)).2 <= p.2)%Q)
  ∧ _mouse w' = p
  ∧ head (added w w') = Some (GetTouchedElementIdentifier p).
Proof.
  intros Hw Hh Hx Hy. cbn zeta.
  split; [by apply normalize_range|].
  split; [by apply normalize_corners|].
  split; [intros x y Hxx Hyy; by apply normalize_monotone|].
  split.
  - unfold Game.step, dispatch.
    pose proof (onTouchEnd_outcome w clientX clientY) as H. cbn zeta in H.
    destruct (onTouchEnd _ _ _ _) as [w' r]. destruct H as [Hm _].
    by destruct r.
  - unfold Game.step, dispatch.
    pose proof (onTouchEnd_outcome w clientX clientY) as H. cbn zeta in H.
    destruct (onTouchEnd _ _ _ _) as [w' r]. destruct H as [_ H].
    destruct (_debuglogs w).
    + destruct H as (-> & _ & H). by rewrite (added_app _ _ _ H).
    + destruct H as (-> & H). cbn.
      assert (trace w' ++ [Uncaught (TypeError
                "Cannot read properties of undefined (reading 'addLog')")]
              = trace w ++ [GetTouchedElementIdentifier
                              (normalize clientX clientY (innerWidth w) (innerHeight w));
                            Uncaught (TypeError
                "Cannot read properties of undefined (reading 'addLog')")]) as H'.
      { by rewrite H, <- app_assoc. }
      unfold added. cbn. by rewrite H', drop_app_length.
Qed.

(** *** The render loop *)

Lemma run_frames (w : World) evs : frames w ≤ frames (run w evs).
Proof.
  induction evs as [|[s eng] evs IH] using rev_ind; [done|].
  rewrite run_snoc.
  destruct (step_evolves (run w evs) s eng) as (_ & Hf & _). lia.
Qed.

Lemma ticks_snoc (t : list call) c :
  length (filter (λ c, is_tick c = true) (t ++ [c]))
  = length (filter (λ c, is_tick c = true) t) + (if is_tick c then 1 else 0).
Proof.
  rewrite filter_app, length_app. f_equal. rewrite filter_cons, filter_nil.
  by destruct c.
Qed.

(** A delivered animation frame always executes one tick, whatever the
    state of the world. *)
Lemma frame_ticks (w : World) eng :
  frames w > 0 → ticks (step w (AnimationFrame, eng)) = S (ticks w).
Proof.
  destruct w as [dbg hp mouse st logs panel rend geos batch lts scn cam ctrl sup cov pend
                 frm iw ih tr].
  unfold ticks, Game.step. cbn. intros Hf. destruct frm as [|n]; [lia|].
  exec; cases. all: rewrite !ticks_snoc; cbn; lia.
Qed.

(** One tick of a loop that is set up. *)
Lemma frame_calls (w : World) eng :
  debug_fields w → ready w → frames w > 0 →
  let w' := step w (AnimationFrame, eng) in
  trace w' = trace w ++ tickCalls w eng ∧ frames w' = frames w.
Proof.
  destruct w as [dbg hp mouse st logs panel rend geos batch lts scn cam ctrl sup cov pend
                 frm iw ih tr].
  unfold debug_fields, ready, tickCalls, Game.step. cbn.
  intros (Hstats & _) ([r ->] & [c ->] & _) Hf. destruct frm as [|n]; [lia|].
  assert (dbg = true → ∃ n, st = Some n) as Hs.
  { intros Hd. apply Hstats in Hd. exact Hd. }
  exec; cases.
  all: try (destruct Hs as [? ?]; [congruence|done]).
  all: by rewrite <- ?app_assoc.
Qed.

(** C6, as the code has it: once a frame is pending the loop cannot be
    stopped.  Every tick requests the next frame before anything else and
    no stop flag is ever consulted: from every state with a pending frame,
    after any sequence of host events a frame is still pending, and the
    next animation frame executes one more tick. *)
Theorem loop_has_no_stop_transition (w : World) evs eng :
  frames w > 0 →
  frames (run w evs) > 0
  ∧ ticks (step (run w evs) (AnimationFrame, eng)) = S (ticks (run w evs)).
Proof.
  intros Hf. pose proof (run_frames w evs) as Hle.
  split; [lia|]. apply frame_ticks. lia.
Qed.

(** C7, as the code has it: in a tick of the running loop in which the
    controls update or the render primitive raises, the error is neither
    caught nor logged by the loop: it escapes to the host's frame
    dispatcher.  The remainder of the tick is skipped, and since the next
    frame was requested at the start of the tick it is still pending and
    the next tick executes. *)
Theorem failing_tick_keeps_the_loop_alive isDebugMode highPerf support width height evs
    eng eng' :
  let w := run (constructor isDebugMode highPerf support width height) evs in
  let w' := step w (AnimationFrame, eng) in
  frames w > 0 →
  (updateRaises eng ≠ None ∨ renderRaises eng ≠ None) →
  added w w' = tickCalls w eng
  ∧ (∃ cause, last (added w w') = Some (Uncaught (EngineError cause)))
  ∧ Forall (λ c, is_log c = false) (added w w')
  ∧ (StatsEnd ∉ added w w')
  ∧ (updateRaises eng ≠ None → Forall (λ c, is_render c = false) (added w w'))
  ∧ frames w' = frames w
  ∧ ticks (step w' (AnimationFrame, eng')) = S (ticks w').
Proof.
  cbn zeta. intros Hf Hraise.
  destruct (reachable_invariant isDebugMode highPerf support width height evs)
    as (Hdbg & _ & _ & (_ & Hready & _)).
  destruct (frame_calls _ eng Hdbg (Hready Hf) Hf) as [Htrace Hframes].
  rewrite (added_app _ _ _ Htrace). split; [done|].
  assert (ticks (step (step (run (constructor isDebugMode highPerf support width height)
                                  evs) (AnimationFrame, eng)) (AnimationFrame, eng'))
          = S (ticks (step (run (constructor isDebugMode highPerf support width height)
                               evs) (AnimationFrame, eng)))) as Hnext.
  { apply frame_ticks. lia. }
  unfold tickCalls.
  destruct (_debugMode _), (updateRaises eng) as [cu|], (renderRaises eng) as [cr|];
    try (by destruct Hraise); cbn.
  all: split_and!; try done; eauto.
  all: try (by repeat constructor).
  all: try (intros Hin; repeat (apply elem_of_cons in Hin as [Hin|Hin]; [done|]);
            by apply elem_of_nil in Hin).
Qed.

(** *** Composition and the loop wait for the loads *)

Lemma uncomposed_quiet (w : World) :
  uncomposed w →
  frames w = 0 ∧ Forall (λ c, is_tick c = false ∧ is_render c = false
                               ∧ is_composition c = false) (trace w).
Proof.
  intros (Hf & _ & _ & _ & Hidle). split; [done|].
  eapply Forall_impl; [exact Hidle|]. intros c Hc. unfold idle in Hc.
  destruct (is_tick c), (is_render c), (is_composition c); done.
Qed.

(** C2: in every execution, each tick and each render call comes after the
    submission of the loads and the whole setup of the load continuation
    (the three [addThings], the camera position and target, the binding of
    the controls); each render call is given a populated scene and a
    positioned camera; while a frame is pending the renderer exists, the
    controls are bound, the camera is positioned and the scene is
    populated; and once a tick has run or a frame is pending, the batch of
    the models is complete without failure. *)
Theorem loop_starts_after_setup isDebugMode highPerf support width height evs :
  let w := run (constructor isDebugMode highPerf support width height) evs in
  (∀ pre c post, trace w = pre ++ c :: post →
     is_tick c = true ∨ is_render c = true → set_up pre ∧ well_rendered c)
  ∧ (frames w > 0 → ready w)
  ∧ (frames w > 0 ∨ Exists (λ c, is_tick c = true ∨ is_render c = true) (trace w) →
       ∃ b, modelBatch w = Some b ∧ descriptors b = modelDescriptors
            ∧ failure b = None ∧ completed b = total b).
Proof.
  cbn zeta.
  destruct (reachable_invariant isDebugMode highPerf support width height evs)
    as (_ & (Hstop & _) & (Hbr & Hbatch) & (_ & Hready & Hord)).
  split_and!; [exact Hord|exact Hready|].
  intros Hstarted.
  assert (∀ w' : World, uncomposed w' →
            ¬ (frames w' > 0
               ∨ Exists (λ c, is_tick c = true ∨ is_render c = true) (trace w')))
    as Hquiet.
  { intros w' [Hf Hall]%uncomposed_quiet [Hpos|Hex]; [lia|].
    apply Exists_exists in Hex as (c & Hin & Hc).
    rewrite Forall_forall in Hall. destruct (Hall c Hin) as (? & ? & _).
    destruct Hc; congruence. }
  destruct (modelBatch _) as [b|] eqn:Hb.
  - destruct (Hbatch b eq_refl) as (? & ? & [Hunc|[? ?]]); [|by eauto].
    by destruct (Hquiet _ Hunc).
  - destruct Hstop as (_ & _ & Hunc & _); [by apply Hbr|].
    by destruct (Hquiet _ Hunc).
Qed.

Lemma completions_snoc evs (s : stimulus Handle) eng :
  completions (evs ++ [(s, eng)])
  = completions evs ++ match s with ModelCompletion c => [c] | _ => [] end.
Proof. unfold completions. rewrite omap_app. f_equal. by destruct s. Qed.

(** Once submitted, the batch of the world is the batch of the
    coordinator fed with the completions of the history. *)
Lemma run_batch (w : World) evs b :
  invariant w → modelBatch w = Some b →
  modelBatch (run w evs) = Some (LoadCoordinator.run b (completions evs)).1.
Proof.
  intros Hinv Hb. induction evs as [|[s eng] evs IH] using rev_ind; [done|].
  rewrite run_snoc, completions_snoc, LoadFailureFacts.run_app.
  destruct (LoadCoordinator.run b (completions evs)) as [b1 os]. cbn [fst] in *.
  destruct (run_invariant w evs Hinv) as (_ & (_ & Hcover & Hperm) & (Hbr & _) & _).
  destruct (step_evolves (run w evs) s eng) as (_ & _ & _ & _ & _ & Hstep).
  assert (renderer (run w evs) ≠ None) as Hrend.
  { intros Hr. apply Hbr in Hr. congruence. }
  rewrite Hstep, IH.
  - destruct s; try done. cbn [LoadCoordinator.run]. by destruct (complete b1 c).
  - destruct (cover _) eqn:Hc; [|done]. by destruct (Hcover eq_refl).
  - destruct (permissionPending _) eqn:Hp; [|done]. by destruct (Hperm eq_refl).
Qed.

Lemma set_modelBatch_same (w : World) : set_modelBatch (modelBatch w) w = w.
Proof. by destruct w. Qed.

Lemma set_modelBatch_twice (w : World) b b' :
  set_modelBatch b' (set_modelBatch b w) = set_modelBatch b' w.
Proof. by destruct w. Qed.

(** A completion that does not resolve the aggregate - an intermediate
    success, the failure that rejects it, a completion after it is settled -
    reaches nothing of the Game: [loadModels] was given the success
    continuation only. *)
Lemma unresolved_completion_only_moves_the_batch (w : World) b c eng :
  modelBatch w = Some b → (∀ r, (complete b c).2 ≠ Some (Resolved r)) →
  step w (ModelCompletion c, eng) = set_modelBatch (Some (complete b c).1) w.
Proof.
  intros Hb Hun. unfold Game.step. rewrite Hb.
  destruct (complete b c) as [b' [[r|e]|]]; [by destruct (Hun r)|done..].
Qed.

Lemma unresolved_completions_only_move_the_batch (w : World) b evs :
  modelBatch w = Some b →
  Forall (λ ev, is_completion ev.1 = true) evs →
  Forall (λ o, ∀ r, o ≠ Resolved r) (LoadCoordinator.run b (completions evs)).2 →
  run w evs = set_modelBatch (Some (LoadCoordinator.run b (completions evs)).1) w.
Proof.
  revert w b. induction evs as [|[s eng] evs IH]; intros w b Hb Hall Hun.
  - cbn. by rewrite <- Hb, set_modelBatch_same.
  - apply Forall_cons in Hall as [Hs Hall]. destruct s; try done.
    change (completions ((ModelCompletion c, eng) :: evs)) with (c :: completions evs)
      in *.
    cbn [LoadCoordinator.run] in *.
    pose proof (unresolved_completion_only_moves_the_batch w b c eng Hb) as Hstep.
    destruct (complete b c) as [b1 o].
    specialize (IH (set_modelBatch (Some b1) w) b1).
    destruct (LoadCoordinator.run b1 (completions evs)) as [b2 os].
    cbn [fst snd] in *. apply Forall_app in Hun as [Ho Hos].
    change (run w ((ModelCompletion c, eng) :: evs))
      with (run (step w (ModelCompletion c, eng)) evs).
    rewrite Hstep, IH, ?set_modelBatch_twice; [done|by destruct w|done..|].
    intros r ->. apply Forall_cons in Ho as [Ho _]. by destruct (Ho r).
Qed.

(** C3, as the code has it: in a batch in which every load completes at
    most once and at least one fails, the aggregate is rejected exactly
    once, with the AssetLoadError of the first failing asset (its
    identifier and cause),
    and the batch keeps that failure; in the Game, whose composition runs
    only in the success continuation, such a batch is never composed: no
    composition call is issued, the scene stays empty and the loop is not
    started.  The failure is not surfaced by the Game: [init] hands
    [loadModels] a success continuation and nothing else, so while the
    completions of such a batch arrive the Game issues no call - no log, no
    exception - and nothing of the world changes but the batch of the
    coordinator. *)
Theorem failed_load_rejects_once_and_is_dropped descs cs i cause d :
  NoDup (index <$> cs) →
  first_failure cs = Some (i, cause) →
  descs !! i = Some d →
  let e := {| err_identifier := identifier d; err_cause := cause |} in
  firings descs cs = [Rejected e]
  ∧ failure (final descs cs) = Some e
  ∧ ∀ isDebugMode highPerf support width height evs0 evs,
      let w0 := run (constructor isDebugMode highPerf support width height) evs0 in
      modelBatch w0 = Some (awaitAll descs).1 → completions evs = cs →
      modelBatch (run w0 evs) = Some (final descs cs) ∧ uncomposed (run w0 evs)
      ∧ (Forall (λ ev, is_completion ev.1 = true) evs →
         run w0 evs = set_modelBatch (Some (final descs cs)) w0
         ∧ ¬ surfaced w0 (run w0 evs)).
Proof.
  intros Hnd Hff Hd. cbn zeta.
  destruct (LoadFailureFacts.first_failure_rejects descs cs i cause d Hnd Hff Hd)
    as [Hfire Hfail].
  split_and!; [done..|].
  intros isDebugMode highPerf support width height evs0 evs Hb0 <-.
  pose proof (reachable_invariant isDebugMode highPerf support width height evs0) as Hinv0.
  pose proof (run_batch _ evs _ Hinv0 Hb0) as Hb. fold (final descs (completions evs)) in Hb.
  split; [done|]. split.
  { destruct (run_invariant _ evs Hinv0) as (_ & _ & (_ & Hbatch) & _).
    destruct (Hbatch _ Hb) as (_ & _ & [Hunc|[Hnone _]]); [done|congruence]. }
  intros Hall.
  assert (run (run (constructor isDebugMode highPerf support width height) evs0) evs
          = set_modelBatch (Some (final descs (completions evs)))
              (run (constructor isDebugMode highPerf support width height) evs0)) as Hrun.
  { apply unresolved_completions_only_move_the_batch; [done..|].
    unfold firings in Hfire. destruct (awaitAll descs) as [b0 [o|]] eqn:Ha; cbn [fst].
    - exfalso. unfold awaitAll in Ha. destruct (settled _); [|done].
      injection Ha as _ <-. done.
    - cbn in Hfire. rewrite Hfire. by apply Forall_singleton. }
  split; [done|]. rewrite Hrun. unfold surfaced, added.
  intros [Hcall|Hfield].
  - apply Hcall. destruct (run _ evs0). cbn. by rewrite drop_all.
  - apply Hfield. by rewrite set_modelBatch_twice, set_modelBatch_same.
Qed.

(** *** What each stimulus moves *)

#[local] Arguments String.eqb : simpl never.

Lemma step_moves (w : World) s eng : moves intersect w s (step w (s, eng)).
Proof.
  destruct w as [dbg hp mouse st logs panel rend geos batch lts scn cam ctrl sup cov pend
                 frm iw ih tr].
  unfold moves, inits, freshRenderer, resized, touchLog, andb.
  destruct s; unfold Game.step; cbn.
  4: destruct batch as [b|];
       [destruct (complete b c) as [b' [[r|e]|]] eqn:Hc;
        [destruct (LoadFailureFacts.complete_outcome _ _ _ _ Hc)
           as (_ & _ & _ & Hres & _); destruct (Hres r eq_refl) as (Hs & _)|..]|].
  all: exec; cases.
  all: split_and!; try done; try lia; eauto.
Qed.

(** **** Clicks *)

Lemma clicks_app (evs evs' : list (stimulus Handle * Engine)) :
  clicks (evs ++ evs') = clicks evs + clicks evs'.
Proof. unfold clicks. by rewrite filter_app, length_app. Qed.

Lemma clicks_snoc evs (s : stimulus Handle) eng :
  clicks (evs ++ [(s, eng)]) = clicks evs + (if is_click s then 1 else 0).
Proof.
  rewrite clicks_app. f_equal. unfold clicks.
  rewrite filter_cons, filter_nil. by destruct s.
Qed.

(** Until the first click the cover is in the document. *)
Lemma unclicked_cover isDebugMode highPerf support width height evs :
  clicks evs = 0 →
  cover (run (constructor isDebugMode highPerf support width height) evs) = true.
Proof.
  induction evs as [|[s eng] evs IH] using rev_ind; [done|].
  rewrite clicks_snoc, run_snoc. intros Hn.
  destruct (step_moves (run (constructor isDebugMode highPerf support width height) evs)
              s eng) as (Hc & _).
  rewrite Hc. destruct s; cbn [is_click] in Hn; try (apply IH; lia). lia.
Qed.

(** In a history with at most one click the click finds the cover in the
    document: on such histories the listener runs at every click, as it
    does in the code. *)
Lemma single_click_finds_the_cover isDebugMode highPerf support width height evs eng evs' :
  clicks (evs ++ (Click, eng) :: evs') ≤ 1 →
  cover (run (constructor isDebugMode highPerf support width height) evs) = true.
Proof.
  rewrite cons_middle, app_assoc, clicks_app, clicks_snoc. cbn [is_click].
  intros Hn. apply unclicked_cover. lia.
Qed.

(** **** Refusal is final *)

Lemma step_refused (w : World) s eng :
  is_click s = false → refused w → refused (step w (s, eng)).
Proof.
  intros Hs (Hc & Hp & Hr).
  destruct (step_moves w s eng) as (Hc' & Hp' & Hr' & _).
  unfold inits in Hr'. rewrite Hc, Hp in *. rewrite Hr in Hr'.
  unfold refused. destruct s; cbn in *; by split_and!.
Qed.

Lemma run_refused (w : World) evs : clicks evs = 0 → refused w → refused (run w evs).
Proof.
  intros Hn H. induction evs as [|[s eng] evs IH] using rev_ind; [done|].
  rewrite clicks_snoc in Hn. rewrite run_snoc. apply step_refused.
  - destruct s; cbn in *; [lia|done..].
  - apply IH. lia.
Qed.

(** X1: in a history with at most one click, once the cover is gone, no
    permission request is pending and no renderer exists - after a refused
    permission, or after the click on a page that does not declare
    [DeviceOrientationEvent] - nothing that follows can start the game: no
    late answer, completion, frame, touch or resize runs [init]; the world
    stays refused and stopped. *)
Theorem refusal_is_final isDebugMode highPerf support width height evs0 evs :
  let w := run (constructor isDebugMode highPerf support width height) evs0 in
  clicks (evs0 ++ evs) ≤ 1 → refused w → refused (run w evs) ∧ stopped (run w evs).
Proof.
  cbn zeta. intros Hn Href.
  assert (clicks evs = 0) as Hnone.
  { rewrite clicks_app in Hn. destruct (clicks evs0) eqn:H0; [|lia].
    destruct Href as [Hc _].
    by rewrite (unclicked_cover isDebugMode highPerf support width height evs0 H0) in Hc. }
  pose proof (run_refused _ evs Hnone Href) as Href'. split; [done|].
  pose proof (reachable_invariant isDebugMode highPerf support width height (evs0 ++ evs))
    as (_ & (Hstop & _) & _).
  unfold Game.run in *. rewrite foldl_app in Hstop. apply Hstop. apply Href'.
Qed.




(** **** The renderer *)

(** X4: whenever a renderer exists it is the one [init] configured -
    antialiasing as asked by [highPerf], soft shadow maps enabled - and its
    size is the current viewport, through every resize. *)
Theorem renderer_follows_viewport isDebugMode highPerf support width height evs :
  let w := run (constructor isDebugMode highPerf support width height) evs in
  renderer w = None
  ∨ renderer w = Some {| antialias := default false highPerf;
                         shadowMapEnabled := true;
                         shadowMapType := PCFSoftShadowMap;
                         size := (innerWidth w, innerHeight w) |}.
Proof.
  cbn zeta. induction evs as [|[s eng] evs IH] using rev_ind; [by left|].
  rewrite run_snoc.
  set (w := run (constructor isDebugMode highPerf support width height) evs) in *.
  assert (_highPerf w = default false highPerf) as Hhp.
  { destruct (run_same_constants
                (constructor isDebugMode highPerf support width height) evs)
      as (_ & Hhp & _). exact Hhp. }
  destruct (step_moves w s eng) as (_ & _ & Hr & Hw & Hh & _).
  rewrite Hr, Hw, Hh. unfold freshRenderer. rewrite Hhp.
  destruct (inits w s) eqn:Hi.
  - right. unfold inits in Hi. by destruct s.
  - destruct IH as [IH | IH]; rewrite IH; destruct s; cbn; auto.
Qed.

(** **** Pending frames *)

Lemma settled_complete (b : LoadBatch Handle) :
  failure b = None → completed b = total b → settled b = true.
Proof. intros Hf Hc. unfold settled. rewrite Hf. by apply bool_decide_eq_true. Qed.

(** X5: in a history with at most one click, only the completion of a
    model load can change the number of pending animation frames - every
    tick requests exactly the one frame it consumed - and at most one frame
    is ever pending, so the loop does not run twice per frame.  The bound
    composes [_loop] with the load coordinator, whose continuation fires
    once. *)
Theorem at_most_one_frame_pending isDebugMode highPerf support width height evs s eng :
  let w := run (constructor isDebugMode highPerf support width height) evs in
  clicks (evs ++ [(s, eng)]) ≤ 1 →
  frames w ≤ 1
  ∧ match s with
    | ModelCompletion _ => frames w ≤ frames (step w (s, eng)) ≤ 1
    | _ => frames (step w (s, eng)) = frames w
    end.
Proof.
  cbn zeta. intros _.
  assert (∀ evs, frames (run (constructor isDebugMode highPerf support width height) evs)
                 ≤ 1) as Hbound.
  { clear evs s eng. intros evs.
    induction evs as [|[s eng] evs IH] using rev_ind; [cbn; lia|].
    rewrite run_snoc.
    set (w := run (constructor isDebugMode highPerf support width height) evs) in *.
    pose proof (reachable_invariant isDebugMode highPerf support width height evs)
      as (_ & _ & (_ & Hbatch) & _). fold w in Hbatch.
    destruct (step_moves w s eng) as (_ & _ & _ & _ & _ & _ & _ & _ & Hf).
    destruct s; try (destruct Hf as [-> _]; done).
    destruct Hf as [->|(-> & b & Hb & Hs)]; [done|].
    destruct (Hbatch b Hb) as (_ & _ & [(-> & _)|[Hfail Hcompl]]); [done|].
    by rewrite settled_complete in Hs. }
  split; [done|].
  pose proof (Hbound (evs ++ [(s, eng)])) as Hnext. rewrite run_snoc in Hnext.
  destruct (step_moves (run (constructor isDebugMode highPerf support width height) evs)
              s eng) as (_ & _ & _ & _ & _ & _ & _ & _ & Hf).
  pose proof (Hbound evs) as Hnow.
  destruct s; try (by destruct Hf as [-> _]).
  destruct Hf as [Hf|(Hf & _)]; rewrite Hf in *; lia.
Qed.

(** X6: in every reachable state with a pending frame, a tick during
    which the engine does not raise runs to completion: it requests the
    next frame, updates the controls, then renders the current scene with
    the current camera, framed by [stats.begin] and [stats.end] exactly in
    debug mode; nothing is thrown and the frame stays pending. *)
Theorem healthy_tick_completes isDebugMode highPerf support width height evs :
  let w := run (constructor isDebugMode highPerf support width height) evs in
  let w' := step w (AnimationFrame, healthy) in
  frames w > 0 →
  added w w'
  = [RequestAnimationFrame]
    ++ (if default true isDebugMode then [StatsBegin] else [])
    ++ [ControlsUpdate; Render (scene_ids (scene w)) (camera w)]
    ++ (if default true isDebugMode then [StatsEnd] else [])
  ∧ frames w' = frames w
  ∧ scene w' = scene w ∧ controls w' = controls w.
Proof.
  cbn zeta. set (w := run (constructor isDebugMode highPerf support width height) evs).
  intros Hf.
  destruct (reachable_invariant isDebugMode highPerf support width height evs)
    as (Hdbg & _ & _ & (_ & Hready & _)). fold w in Hdbg, Hready.
  destruct (frame_calls w healthy Hdbg (Hready Hf) Hf) as [Htrace Hframes].
  destruct (step_moves w AnimationFrame healthy)
    as (_ & _ & _ & _ & _ & _ & _ & _ & (_ & Hs & Hc & _)).
  assert (_debugMode w = default true isDebugMode) as Hdm
    by apply reachable_debugMode.
  rewrite (added_app _ _ _ Htrace). unfold tickCalls. rewrite Hdm.
  by split_and!.
Qed.

(** **** The resize listener *)

Lemma resize_calls (w : World) newWidth newHeight eng :
  trace (step w (Resize newWidth newHeight, eng))
  = trace w
    ++ match renderer w with
       | None =>
           [Uncaught (TypeError "Cannot read properties of undefined (reading 'setSize')")]
       | Some _ => [RendererSetSize newWidth newHeight; UpdateProjectionMatrix]
       end.
Proof.
  destruct w as [dbg hp mouse st logs panel rend geos batch lts scn cam ctrl sup cov pend
                 frm iw ih tr].
  unfold Game.step. cbn. exec. destruct rend; cbn; [|done]. by rewrite <- app_assoc.
Qed.

(** X7: a resize to a positive height always records the new viewport
    and never moves the camera.  Before [init] has run - in particular in every history without
    a click on the cover - there is no renderer and the listener throws a
    TypeError before it reaches the camera, whose aspect stays as it was;
    once a renderer exists it is resized, the aspect becomes width / height
    and the projection matrix is updated. *)
Theorem resize_outcome isDebugMode highPerf support width height evs
    newWidth newHeight eng :
  let w := run (constructor isDebugMode highPerf support width height) evs in
  let w' := step w (Resize newWidth newHeight, eng) in
  (0 < newHeight)%Q →
  innerWidth w' = newWidth ∧ innerHeight w' = newHeight
  ∧ cam_position (camera w') = cam_position (camera w)
  ∧ cam_target (camera w') = cam_target (camera w)
  ∧ match renderer w with
    | None =>
        added w w'
        = [Uncaught (TypeError "Cannot read properties of undefined (reading 'setSize')")]
        ∧ renderer w' = None
        ∧ aspect (camera w') = aspect (camera w)
    | Some r =>
        added w w' = [RendererSetSize newWidth newHeight; UpdateProjectionMatrix]
        ∧ renderer w' = Some (resized newWidth newHeight r)
        ∧ aspect (camera w') = Some (newWidth / newHeight)%Q
    end
  ∧ (¬ clicked evs → renderer w = None).
Proof.
  cbn zeta. set (w := run (constructor isDebugMode highPerf support width height) evs).
  intros _.
  destruct (step_moves w (Resize newWidth newHeight) eng)
    as (_ & _ & Hr & Hw & Hh & _ & _ & Ha & (_ & _ & _ & Hpos & Htarget)).
  pose proof (resize_calls w newWidth newHeight eng) as Htrace.
  cbn [inits] in Hr. split_and!; [done..| |].
  - destruct (renderer w) as [r|]; (split_and!; [by apply added_app|done|done]).
  - intros Hno. destruct (renderer w) eqn:Hrend; [|done]. exfalso. apply Hno.
    destruct (init_history isDebugMode highPerf support width height evs) as [Hi _].
    cbn zeta in Hi. fold w in Hi. apply Hi. by rewrite Hrend.
Qed.

(** **** The debug log and the pointer *)

Lemma touches_snoc evs (s : stimulus Handle) eng :
  touches (evs ++ [(s, eng)]) = touches evs + (if is_touch s then 1 else 0).
Proof.
  unfold touches. rewrite filter_app, length_app. f_equal.
  rewrite filter_cons, filter_nil. by destruct s.
Qed.

(** X8: the debug log exists exactly in debug mode and then holds one
    line per delivered touchend, each of the form "RayCast -> identifier";
    the pointer stays at the origin until the first touchend. *)
Theorem debug_log_counts_touches isDebugMode highPerf support width height evs :
  let w := run (constructor isDebugMode highPerf support width height) evs in
  match _debuglogs w with
  | Some logs =>
      default true isDebugMode = true
      ∧ length logs = touches evs
      ∧ Forall (λ line, ∃ id, line = ("RayCast -> " ++ id)%string) logs
  | None => default true isDebugMode = false
  end
  ∧ (touches evs = 0 → _mouse w = (0, 0)%Q).
Proof.
  cbn zeta.
  assert (∀ logs,
            _debuglogs (run (constructor isDebugMode highPerf support width height) evs)
            = Some logs →
            length logs = touches evs
            ∧ Forall (λ line, ∃ id, line = ("RayCast -> " ++ id)%string) logs) as Hlogs.
  { induction evs as [|[s eng] evs IH] using rev_ind.
    - intros logs. destruct isDebugMode as [[]|]; cbn; intros [= <-]; by split.
    - intros logs. rewrite run_snoc, touches_snoc.
      destruct (step_moves (run (constructor isDebugMode highPerf support width height) evs)
                  s eng) as (_ & _ & _ & _ & _ & _ & Hl & _).
      rewrite Hl. destruct s; cbn [is_touch];
        try (intros H; destruct (IH _ H); split; [lia|done]).
      destruct (_debuglogs _) as [logs0|]; [|done]. cbn. intros [= <-].
      destruct (IH logs0 eq_refl) as [Hlen Hall]. split.
      + rewrite length_app. cbn. lia.
      + apply Forall_app. split; [done|]. apply Forall_singleton.
        unfold touchLog. eauto. }
  split.
  - destruct (reachable_invariant isDebugMode highPerf support width height evs)
      as ((_ & Hdbg) & _).
    rewrite reachable_debugMode in Hdbg.
    destruct (_debuglogs _) as [logs|] eqn:Hl.
    + destruct (Hlogs logs eq_refl). split_and!; [|done..]. apply Hdbg. by eauto.
    + destruct (default true isDebugMode); [|done].
      destruct Hdbg as [_ [? ?]]; done.
  - clear Hlogs. induction evs as [|[s eng] evs IH] using rev_ind; [done|].
    rewrite run_snoc, touches_snoc.
    destruct (step_moves (run (constructor isDebugMode highPerf support width height) evs)
                s eng) as (_ & _ & _ & _ & _ & Hm & _).
    rewrite Hm. destruct s; cbn [is_touch]; intros H; try (apply IH; lia). lia.
Qed.

End Facts.

(** *** The concrete page *)

Example exampleRunning_trace :
  frames exampleRunning = 1
  ∧ scene_ids (scene exampleRunning)
    = ["Ground"; "Skybox"; "GreenCube"; "BlueWall"; "Fox"; "IceTruck"; "MainSpotLight"]
  ∧ lookup_node (scene exampleRunning) "Truck" = None
  ∧ (node_identifier <$> lookup_node (scene exampleRunning) "Fox") = Some "Fox".
Proof. vm_compute. done. Qed.

(** The three ways past the cover: a page without [requestPermission]
    initializes on the click; with it, only the answer 'granted' does; a
    page that does not declare [DeviceOrientationEvent] never does. *)
Example permission_paths :
  let page support := constructor (Handle:=nat) None None support 800 600 in
  let after w evs := run exampleCreate exampleIntersect w evs in
  is_Some (renderer (after (page WithoutRequestPermission) [(Click, healthy)]))
  ∧ renderer (after (page WithRequestPermission) [(Click, healthy)]) = None
  ∧ is_Some (renderer (after (page WithRequestPermission)
                         [(Click, healthy); (PermissionResponse "granted", healthy)]))
  ∧ renderer (after (page WithRequestPermission)
                [(Click, healthy); (PermissionResponse "denied", healthy)]) = None
  ∧ renderer (after (page WithRequestPermission)
                [(PermissionResponse "granted", healthy)]) = None
  ∧ renderer (after (page Undeclared) [(Click, healthy)]) = None.
Proof. vm_compute. split_and!; eauto. Qed.

(** C3, as the claim states it, fails: when the fox fails to load on the
    page without [requestPermission], the coordinator rejects the aggregate
    with the error of the fox, and the Game does not take notice - it issues
    no call and none of its fields changes; the failure is swallowed. *)
Lemma swallowed_load_failure_counterexample :
  let w0 := run exampleCreate exampleIntersect exampleGame [(Click, healthy)] in
  let w' := run exampleCreate exampleIntersect w0 exampleFailure in
  firings (Handle:=nat) modelDescriptors (completions exampleFailure)
    = [Rejected {| err_identifier := "Fox"; err_cause := "404" |}]
  ∧ ¬ surfaced w0 w'.
Proof.
  cbn zeta. split; [reflexivity|].
  intros [Hcall|Hfield]; [apply Hcall|apply Hfield]; by vm_compute.
Qed.

Lemma failed_load_rejects_once_and_is_dropped_witness :
  let w0 := run exampleCreate exampleIntersect exampleGame [(Click, healthy)] in
  let w' := run exampleCreate exampleIntersect w0 exampleFailure in
  firings (Handle:=nat) modelDescriptors (completions exampleFailure)
    = [Rejected {| err_identifier := "Fox"; err_cause := "404" |}]
  ∧ uncomposed w'
  ∧ w' = set_modelBatch (Some (final modelDescriptors (completions exampleFailure))) w0
  ∧ ¬ surfaced w0 w'.
Proof.
  cbn zeta.
  destruct (failed_load_rejects_once_and_is_dropped exampleCreate exampleIntersect
              modelDescriptors (completions exampleFailure) 0 "404"
              {| identifier := "Fox"; sourcePath := "models/Fox.glb";
                 scale := 0.02; position := (0, 0, 0)%Q |})
    as (Hfire & _ & Hworld).
  - apply (bool_decide_unpack _). by vm_compute.
  - reflexivity.
  - reflexivity.
  - split; [exact Hfire|].
    destruct (Hworld (Some false) None WithoutRequestPermission 800%Q 600%Q
                [(Click, healthy)] exampleFailure) as (_ & Hunc & Hdrop);
      [reflexivity..|].
    destruct Hdrop as [Hrun Hsilent].
    + repeat constructor.
    + by split_and!.
Defined.

(** C6, as the claim states it, fails: the loop of the running page has no
    stop transition - after any event, the next animation frame still
    executes a tick. *)
Lemma stop_transition_counterexample :
  frames exampleRunning > 0
  ∧ ¬ ∃ ev, ∀ evs,
        ticks (run exampleCreate exampleIntersect
                 (step exampleCreate exampleIntersect exampleRunning ev) evs)
        = ticks (step exampleCreate exampleIntersect exampleRunning ev).
Proof.
  assert (frames exampleRunning = 1) as Hf by by vm_compute.
  split; [lia|]. intros [[s eng] Hstop].
  specialize (Hstop [(AnimationFrame, healthy)]). cbn [run foldl] in Hstop.
  rewrite frame_ticks in Hstop; [lia|].
  destruct (step_evolves exampleCreate exampleIntersect exampleRunning s eng)
    as (_ & Hle & _). lia.
Qed.

Lemma loop_has_no_stop_transition_witness :
  frames (run exampleCreate exampleIntersect exampleRunning
            [(TouchEnd 400 300, healthy); (Resize 1024 768, contextLost)]) > 0
  ∧ ticks (step exampleCreate exampleIntersect
             (run exampleCreate exampleIntersect exampleRunning
                [(TouchEnd 400 300, healthy); (Resize 1024 768, contextLost)])
             (AnimationFrame, healthy))
    = S (ticks (run exampleCreate exampleIntersect exampleRunning
                  [(TouchEnd 400 300, healthy); (Resize 1024 768, contextLost)])).
Proof.
  apply (loop_has_no_stop_transition exampleCreate exampleIntersect exampleRunning).
  vm_compute. lia.
Defined.

(** C7, as the claim states it, fails: in a tick of the running page in
    which the controls update raises, the loop logs nothing; the error
    escapes to the host. *)
Lemma unlogged_tick_error_counterexample :
  let w' := step exampleCreate exampleIntersect exampleRunning (AnimationFrame, contextLost) in
  added exampleRunning w'
    = [RequestAnimationFrame; ControlsUpdate; Uncaught (EngineError "context lost")]
  ∧ ¬ Exists (λ c, is_log c = true) (added exampleRunning w').
Proof.
  cbn zeta.
  assert (added exampleRunning
            (step exampleCreate exampleIntersect exampleRunning (AnimationFrame, contextLost))
          = [RequestAnimationFrame; ControlsUpdate; Uncaught (EngineError "context lost")])
    as -> by by vm_compute.
  split; [done|]. intros H.
  repeat (apply Exists_cons in H as [H|H]; [done|]). by apply Exists_nil in H.
Qed.

Lemma failing_tick_keeps_the_loop_alive_witness :
  let w := run exampleCreate exampleIntersect exampleGame exampleStart in
  let w' := step exampleCreate exampleIntersect w (AnimationFrame, contextLost) in
  added w w' = tickCalls w contextLost
  ∧ (∃ cause, last (added w w') = Some (Uncaught (EngineError cause)))
  ∧ Forall (λ c, is_log c = false) (added w w')
  ∧ (StatsEnd ∉ added w w')
  ∧ (updateRaises contextLost ≠ None → Forall (λ c, is_render c = false) (added w w'))
  ∧ frames w' = frames w
  ∧ ticks (step exampleCreate exampleIntersect w' (AnimationFrame, healthy)) = S (ticks w').
Proof.
  apply (failing_tick_keeps_the_loop_alive exampleCreate exampleIntersect
           (Some false) None WithoutRequestPermission 800%Q 600%Q exampleStart
           contextLost healthy).
  - vm_compute. lia.
  - left. discriminate.
Defined.

Lemma pointer_normalized_before_raycast_witness :
  let p := normalize 400 300 800 600 in
  let w' := step exampleCreate exampleIntersect exampleRunning (TouchEnd 400 300, healthy) in
  ((-1 <= p.1 <= 1)%Q ∧ (-1 <= p.2 <= 1)%Q)
  ∧ (((normalize 0 0 800 600).1 == -1)%Q
     ∧ ((normalize 0 0 800 600).2 == 1)%Q
     ∧ ((normalize 800 600 800 600).1 == 1)%Q
     ∧ ((normalize 800 600 800 600).2 == -1)%Q)
  ∧ (∀ x y, (400 <= x)%Q → (300 <= y)%Q →
       (p.1 <= (normalize x y 800 600).1)%Q ∧ ((normalize x y 800 600).2 <= p.2)%Q)
  ∧ _mouse w' = p
  ∧ head (added exampleRunning w') = Some (GetTouchedElementIdentifier p).
Proof.
  apply (pointer_normalized_before_raycast exampleCreate exampleIntersect exampleRunning
           400%Q 300%Q healthy).
  - reflexivity.
  - reflexivity.
  - split; vm_compute; discriminate.
  - split; vm_compute; discriminate.
Defined.

Lemma refusal_is_final_witness :
  let w := run exampleCreate exampleIntersect
             (constructor (Handle:=nat) None None Undeclared 800 600) [(Click, healthy)] in
  let evs := [(PermissionResponse "granted", healthy); (Resize 1024 768, healthy);
              (AnimationFrame, healthy)] in
  refused w
  ∧ refused (run exampleCreate exampleIntersect w evs)
  ∧ stopped (run exampleCreate exampleIntersect w evs).
Proof.
  cbn zeta. split.
  - by vm_compute.
  - apply (refusal_is_final exampleCreate exampleIntersect None None Undeclared 800%Q 600%Q
             [(Click, healthy)]
             [(PermissionResponse "granted", healthy); (Resize 1024 768, healthy);
              (AnimationFrame, healthy)]).
    + vm_compute. lia.
    + by vm_compute.
Defined.


Lemma healthy_tick_completes_witness :
  let w := run exampleCreate exampleIntersect exampleGame exampleStart in
  let w' := step exampleCreate exampleIntersect w (AnimationFrame, healthy) in
  added w w'
  = [RequestAnimationFrame; ControlsUpdate; Render (scene_ids (scene w)) (camera w)]
  ∧ frames w' = frames w ∧ scene w' = scene w ∧ controls w' = controls w.
Proof.
  apply (healthy_tick_completes exampleCreate exampleIntersect (Some false) None
           WithoutRequestPermission 800%Q 600%Q exampleStart).
  vm_compute. lia.
Defined.

Lemma at_most_one_frame_pending_witness :
  let w := run exampleCreate exampleIntersect exampleGame
             [(Click, healthy); (ModelCompletion (Loaded 1 7), healthy)] in
  frames w ≤ 1
  ∧ frames w
    ≤ frames (step exampleCreate exampleIntersect w (ModelCompletion (Loaded 0 8), healthy))
    ≤ 1.
Proof.
  apply (at_most_one_frame_pending exampleCreate exampleIntersect (Some false) None
           WithoutRequestPermission 800%Q 600%Q
           [(Click, healthy); (ModelCompletion (Loaded 1 7), healthy)]
           (ModelCompletion (Loaded 0 8)) healthy).
  vm_compute. lia.
Defined.

Lemma resize_outcome_witness :
  let w := run exampleCreate exampleIntersect exampleGame exampleStart in
  let w' := step exampleCreate exampleIntersect w (Resize 1024 768, healthy) in
  innerWidth w' = 1024%Q ∧ innerHeight w' = 768%Q
  ∧ cam_position (camera w') = cam_position (camera w)
  ∧ cam_target (camera w') = cam_target (camera w)
  ∧ match renderer w with
    | None =>
        added w w'
        = [Uncaught (TypeError "Cannot read properties of undefined (reading 'setSize')")]
        ∧ renderer w' = None
        ∧ aspect (camera w') = aspect (camera w)
    | Some r =>
        added w w' = [RendererSetSize 1024 768; UpdateProjectionMatrix]
        ∧ renderer w' = Some (resized 1024 768 r)
        ∧ aspect (camera w') = Some (1024 / 768)%Q
    end
  ∧ (¬ clicked exampleStart → renderer w = None).
Proof.
  apply (resize_outcome exampleCreate exampleIntersect (Some false) None
           WithoutRequestPermission 800%Q 600%Q exampleStart 1024%Q 768%Q healthy).
  reflexivity.
Defined.

End GameFacts.
